(** * opt_control_nmr: Liouville-space superoperator and rank-2 Wigner matrix

    A shallow embedding of [create_superoperator.py] and
    [homemade_wigner.py].

    Numbers.  The scripts compute with numpy [float64] / [complex128].
    The embedding reads every arithmetic operation as the exact operation
    of a field [K]; a complex number is a pair (real part, imaginary part)
    over [K], and a real array that numpy promotes when it meets a
    complex one is embedded with imaginary part zero.  Two instances are
    used: the rationals [Q], on which every definition evaluates, and the
    real numbers [R], on which the properties are stated.  *)

From Stdlib Require Import List ZArith QArith Qreals Reals.
From Stdlib Require Import Lra Lia Ring RNsatz.
Import ListNotations.

Set Implicit Arguments.
Open Scope nat_scope.

(** ** Scalars *)

Class Scalar (K : Type) : Type := {
  zero : K;
  one : K;
  add : K -> K -> K;
  mul : K -> K -> K;
  sub : K -> K -> K;
  opp : K -> K;
  div : K -> K -> K;
  of_Z : Z -> K
}.

(** Rationals, kept in lowest terms after every operation. *)
#[export] Instance Scalar_Q : Scalar Q := {
  zero := 0%Q;
  one := 1%Q;
  add := fun x y => Qred (x + y);
  mul := fun x y => Qred (x * y);
  sub := fun x y => Qred (x - y);
  opp := Qopp;
  div := fun x y => Qred (x / y);
  of_Z := inject_Z
}.

#[export] Instance Scalar_R : Scalar R := {
  zero := 0%R;
  one := 1%R;
  add := Rplus;
  mul := Rmult;
  sub := Rminus;
  opp := Ropp;
  div := Rdiv;
  of_Z := IZR
}.

(** ** Complex numbers as pairs *)

Definition Cx (K : Type) : Type := (K * K)%type.

Section Complex.
Context {K : Type} {SK : Scalar K}.

Definition Re (z : Cx K) : K := fst z.
Definition Im (z : Cx K) : K := snd z.

Definition C0 : Cx K := (zero, zero).
Definition C1 : Cx K := (one, zero).
(** [1j] *)
Definition Ci : Cx K := (zero, one).
(** a real number where numpy expects a complex one *)
Definition RtoC (x : K) : Cx K := (x, zero).
(** an integer literal, or an [int64] array element *)
Definition ZtoC (n : Z) : Cx K := RtoC (of_Z n).
(** the literal [0.5] *)
Definition half : K := div (of_Z 1) (of_Z 2).

Definition Cadd (z w : Cx K) : Cx K :=
  (add (Re z) (Re w), add (Im z) (Im w)).
Definition Csub (z w : Cx K) : Cx K :=
  (sub (Re z) (Re w), sub (Im z) (Im w)).
Definition Copp (z : Cx K) : Cx K := (opp (Re z), opp (Im z)).
Definition Cmul (z w : Cx K) : Cx K :=
  (sub (mul (Re z) (Re w)) (mul (Im z) (Im w)),
   add (mul (Re z) (Im w)) (mul (Im z) (Re w))).
Definition Cconj (z : Cx K) : Cx K := (Re z, opp (Im z)).
Definition Cnorm2 (z : Cx K) : K :=
  add (mul (Re z) (Re z)) (mul (Im z) (Im z)).
Definition Cdiv (z w : Cx K) : Cx K :=
  (div (add (mul (Re z) (Re w)) (mul (Im z) (Im w))) (Cnorm2 w),
   div (sub (mul (Im z) (Re w)) (mul (Re z) (Im w))) (Cnorm2 w)).
End Complex.

(** ** Arrays: vectors and row-major matrices *)

Section Arrays.
Context {K : Type} {SK : Scalar K}.

Definition vec : Type := list (Cx K).
Definition mat : Type := list vec.

(** [M[r, c]] *)
Definition entry (M : mat) (r c : nat) : Cx K := nth c (nth r M []) C0.

(** [a * v] and [a * M] for a scalar [a] *)
Definition vscale (a : Cx K) (v : vec) : vec := map (Cmul a) v.
Definition mscale (a : Cx K) (M : mat) : mat := map (vscale a) M.

Fixpoint zipWith (A B X : Type) (f : A -> B -> X)
    (u : list A) (v : list B) : list X :=
  match u, v with
  | a :: u', b :: v' => f a b :: zipWith f u' v'
  | _, _ => []
  end.

(** [A + B] and [A - B] on arrays of one shape *)
Definition madd (A B : mat) : mat := zipWith (zipWith Cadd) A B.
Definition msub (A B : mat) : mat := zipWith (zipWith Csub) A B.

(** [M.T] for a two-dimensional array *)
Definition transpose (M : mat) : mat :=
  match M with
  | [] => []
  | r0 :: _ => map (fun j => map (fun row => nth j row C0) M)
                   (seq 0 (length r0))
  end.

(** [np.kron(A, B)]: block (i, j) of the result is [A[i, j] * B] *)
Definition kron (A B : mat) : mat :=
  flat_map (fun ra =>
    map (fun rb => flat_map (fun a => map (Cmul a) rb) ra) B) A.

(** [M.flatten()], row-major *)
Definition flatten (M : mat) : vec := concat M.

(** [np.dot(u, v)] on one-dimensional arrays: no conjugation *)
Definition dot (u v : vec) : Cx K :=
  fold_left Cadd (zipWith Cmul u v) C0.

(** [np.dot(M, v)]: matrix times vector *)
Definition mv (M : mat) (v : vec) : vec := map (fun row => dot row v) M.

(** [np.zeros((n, m), dtype=np.complex128)] *)
Definition zeros (n m : nat) : mat := repeat (repeat C0 m) n.

(** [l[i] = x]; an index out of range is never used by the scripts
    (numpy would raise), here the list is left as it is *)
Fixpoint upd (A : Type) (i : nat) (x : A) (l : list A) : list A :=
  match l, i with
  | [], _ => []
  | _ :: l', O => x :: l'
  | y :: l', S i' => y :: upd i' x l'
  end.

(** [M[r, c] = v] *)
Definition mset (M : mat) (r c : nat) (v : Cx K) : mat :=
  upd r (upd c v (nth r M [])) M.

(** The two nested [for] loops of both scripts:
    [for r in range(n): for c in range(m): M[r, c] = f r c] *)
Definition fill_loop (n m : nat) (f : nat -> nat -> Cx K) (M : mat) : mat :=
  fold_left (fun M1 r =>
    fold_left (fun M2 c => mset M2 r c (f r c)) (seq 0 m) M1)
    (seq 0 n) M.

(** *** Vocabulary of the properties (not computed by the scripts) *)

Definition has_shape (n m : nat) (M : mat) : Prop :=
  length M = n /\ Forall (fun row => length row = m) M.

(** the table [f r c] for [r < n], [c < m] *)
Definition tabulate (n m : nat) (f : nat -> nat -> Cx K) : mat :=
  map (fun r => map (f r) (seq 0 m)) (seq 0 n).

(** matrix product [A . B] *)
Definition mmul (A B : mat) : mat :=
  map (fun row => map (dot row) (transpose B)) A.

(** conjugate transpose [M^H] *)
Definition ctranspose (M : mat) : mat := map (map Cconj) (transpose M).

(** the diagonal matrix with the entries of [d] on its diagonal *)
Definition diag (d : vec) : mat :=
  tabulate (length d) (length d)
    (fun r c => if Nat.eqb r c then nth r d C0 else C0).

Definition identity (n : nat) : mat := diag (repeat C1 n).

(** trace inner product: the sum of the elementwise products of [A] and
    the transpose of [B] *)
Definition trace_inner (A B : mat) : Cx K :=
  dot (flatten A) (flatten (transpose B)).

(** the commutator [A . B - B . A] *)
Definition commutator (A B : mat) : mat := msub (mmul A B) (mmul B A).

(** [u + v] on vectors *)
Definition vadd (u v : vec) : vec := zipWith Cadd u v.

(** column [c] of a matrix, [M[:, c]] *)
Definition column (M : mat) (c : nat) : vec :=
  map (fun row => nth c row C0) M.

(** the [j]-th unit vector of length 16 *)
Definition unit_vector (j : nat) : vec :=
  map (fun k => if Nat.eqb k j then C1 else C0) (seq 0 16).
End Arrays.

Arguments vec K : clear implicits.
Arguments mat K : clear implicits.

(** ** create_superoperator.py *)

Module Superoperator.
Section Script.
Context {K : Type} {SK : Scalar K}.

(** *** 1. Spin operators *)

Definition uni : mat K :=
  [[RtoC one; RtoC zero];
   [RtoC zero; RtoC one]].

Definition Ix : mat K :=
  mscale (RtoC half) [[RtoC zero; RtoC one];
                      [RtoC one; RtoC zero]].

(** [0.5j] is the complex literal with real part 0 *)
Definition Iy : mat K :=
  mscale (zero, half) [[RtoC zero; RtoC (opp one)];
                       [RtoC one; RtoC zero]].

Definition Iz : mat K :=
  mscale (RtoC half) [[RtoC one; RtoC zero];
                      [RtoC zero; RtoC (opp one)]].

Definition E : mat K := kron uni uni.
Definition pIz : mat K := kron Iz uni.
Definition pSz : mat K := kron uni Iz.
Definition pIzSz : mat K := mscale (ZtoC 2) (kron Iz Iz).

Definition pIx : mat K := kron Ix uni.
Definition pIy : mat K := kron Iy uni.
Definition pIxSz : mat K := mscale (ZtoC 2) (kron Ix Iz).
Definition pIySz : mat K := mscale (ZtoC 2) (kron Iy Iz).

Definition pSx : mat K := kron uni Ix.
Definition pSy : mat K := kron uni Iy.
Definition pIzSx : mat K := mscale (ZtoC 2) (kron Iz Ix).
Definition pIzSy : mat K := mscale (ZtoC 2) (kron Iz Iy).

Definition pIxSx : mat K := mscale (ZtoC 2) (kron Ix Ix).
Definition pIySy : mat K := mscale (ZtoC 2) (kron Iy Iy).
Definition pIxSy : mat K := mscale (ZtoC 2) (kron Ix Iy).
Definition pIySx : mat K := mscale (ZtoC 2) (kron Iy Ix).

(** Row vectors; [np.copy] returns an equal array. *)
Definition vE : vec K := flatten E.
Definition vIz : vec K := flatten pIz.
Definition vSz : vec K := flatten pSz.
Definition vIzSz : vec K := flatten pIzSz.

Definition vIx : vec K := flatten pIx.
Definition vIy : vec K := flatten pIy.
Definition vIxSz : vec K := flatten pIxSz.
Definition vIySz : vec K := flatten pIySz.

Definition vSx : vec K := flatten pSx.
Definition vSy : vec K := flatten pSy.
Definition vIzSx : vec K := flatten pIzSx.
Definition vIzSy : vec K := flatten pIzSy.

Definition vIxSx : vec K := flatten pIxSx.
Definition vIySy : vec K := flatten pIySy.
Definition vIxSy : vec K := flatten pIxSy.
Definition vIySx : vec K := flatten pIySx.

(** *** 2. Hilbert space Hamiltonian *)

Definition H : mat K :=
  madd (madd (madd (madd
    (mscale (ZtoC 1) pIz)
    (mscale (ZtoC 2) pSz))
    (mscale (ZtoC 3) (madd (madd pIxSx pIySy) pIzSz)))
    (mscale (ZtoC 4) (madd pIx pSx)))
    (mscale (ZtoC 5) (madd pIy pSy)).

(** *** 3. Liouville space transformation *)

(** The right-hand side of [Hs = np.kron(H, E.T)-np.kron(E, H.T)], as a
    function of the Hamiltonian it is applied to. *)
Definition toSuperoperator (H0 : mat K) : mat K :=
  msub (kron H0 (transpose E)) (kron E (transpose H0)).

Definition Hs : mat K := toSuperoperator H.

Definition vector_operators : list (vec K) :=
  [vscale (RtoC half) vE; vIx; vIy; vIz; vSx; vSy; vSz; vIxSz; vIySz;
   vIzSx; vIzSy; vIxSx; vIxSy; vIySx; vIySy; vIzSz].

(** The value assigned to [Hsp[r,c]] in the loop body; [v.T] of a
    one-dimensional array is [v]. *)
Definition Hsp_entry (r c : nat) : Cx K :=
  let rop := nth r vector_operators [] in
  let cop := nth c vector_operators [] in
  Cdiv (dot rop (mv Hs cop)) (dot rop rop).

Definition Hsp : mat K := fill_loop 16 16 Hsp_entry (zeros 16 16).

(** *** Vocabulary of the properties *)

(** The sixteen product operators of lines 41-59, in the order in which
    [vector_operators] lists their vectors. *)
Definition product_operators : list (mat K) :=
  [E; pIx; pIy; pIz; pSx; pSy; pSz; pIxSz; pIySz;
   pIzSx; pIzSy; pIxSx; pIxSy; pIySx; pIySy; pIzSz].

(** The coefficient-weighted sum of the product operators, for one
    coefficient per operator in the order of [product_operators]. *)
Definition weighted_sum (coeffs : list Z) : mat K :=
  fold_left madd
    (zipWith (fun c P => mscale (ZtoC c) P) coeffs product_operators)
    (zeros 4 4).

(** The coefficients that line 91 writes down: Ix=4, Iy=5, Iz=1, Sx=4,
    Sy=5, Sz=2, IxSx=3, IySy=3, IzSz=3 and 0 for the other operators. *)
Definition reference_coefficients : list Z :=
  [0; 4; 5; 1; 4; 5; 2; 0; 0; 0; 0; 3; 0; 0; 3; 3]%Z.

(** *** The projection as a function of the matrix it projects *)

(** The loop body of line 117 with the superoperator [Hs] as a
    parameter [S]. *)
Definition project_entry (S : mat K) (r c : nat) : Cx K :=
  let rop := nth r vector_operators [] in
  let cop := nth c vector_operators [] in
  Cdiv (dot rop (mv S cop)) (dot rop rop).

(** Lines 106-117 with [Hs] as a parameter. *)
Definition projectOntoBasis (S : mat K) : mat K :=
  fill_loop 16 16 (project_entry S) (zeros 16 16).

(** The matrices whose flattenings [vector_operators] lists: the product
    operators, with the identity scaled by 1/2. *)
Definition basis_matrices : list (mat K) :=
  [mscale (RtoC half) E; pIx; pIy; pIz; pSx; pSy; pSz; pIxSz; pIySz;
   pIzSx; pIzSy; pIxSx; pIxSy; pIySx; pIySy; pIzSz].

(** The coordinates of a vector [v] in the basis: for every basis vector
    [b] the quotient that line 117 forms, [dot(b, v) / dot(b, b)]. *)
Definition coordinates (v : vec K) : vec K :=
  map (fun b => Cdiv (dot b v) (dot b b)) vector_operators.

(** The vector with coordinates [x]: the sum of [x[r] * basis[r]]. *)
Definition expand (x : vec K) : vec K :=
  fold_left vadd (zipWith vscale x vector_operators) (repeat C0 16).

(** The numerator of line 117 once [Hs] acts as a commutator: basis
    operator [r] paired with the commutator of [H0] and basis operator
    [c]. *)
Definition pairing (H0 : mat K) (r c : nat) : Cx K :=
  dot (flatten (nth r basis_matrices []))
      (flatten (commutator H0 (nth c basis_matrices []))).

(** The value of [np.dot(b, b.T)] for each basis vector [b], which is
    also the sign of the basis operator under transposition: -1 for the
    six operators with exactly one factor Iy. *)
Definition transpose_sign : list Z :=
  [1; 1; -1; 1; 1; -1; 1; 1; -1; 1; -1; 1; -1; -1; 1; 1]%Z.

End Script.
End Superoperator.

(** ** homemade_wigner.py *)

Module Wigner.
Local Open Scope R_scope.

(** [np.exp] on a complex number *)
Definition Cexp (z : Cx R) : Cx R :=
  (exp (Re z) * cos (Im z), exp (Re z) * sin (Im z)).

Definition plus_to_minus_two : list Z := [2; 1; 0; -1; -2]%Z.

Definition red_wig (beta : R) : list (list R) :=
  [[cos (beta/2) ^ 4; - sin beta * (1 + cos beta) / 2;
    sqrt (3/8) * sin beta ^ 2; - sin beta * (1 - cos beta) / 2;
    sin (beta/2) ^ 4];
   [sin beta * (1 + cos beta) / 2; (2 * cos beta - 1) * (1 + cos beta) / 2;
    - sqrt (3/2) * sin beta * cos beta;
    (2 * cos beta + 1) * (1 - cos beta) / 2;
    - sin beta * (1 - cos beta) / 2];
   [sqrt (3/8) * sin beta ^ 2; sqrt (3/2) * sin beta * cos beta;
    (3 * cos beta ^ 2 - 1) / 2; - sqrt (3/2) * sin beta * cos beta;
    sqrt (3/8) * sin beta ^ 2];
   [sin beta * (1 - cos beta) / 2; (2 * cos beta + 1) * (1 - cos beta) / 2;
    sqrt (3/2) * sin beta * cos beta;
    (2 * cos beta - 1) * (1 + cos beta) / 2;
    - sin beta * (1 + cos beta) / 2];
   [sin (beta/2) ^ 4; sin beta * (1 - cos beta) / 2;
    sqrt (3/8) * sin beta ^ 2; sin beta * (1 + cos beta) / 2;
    cos (beta/2) ^ 4]].

(** [np.exp(-1j*m*angle)] *)
Definition phase (m : Z) (angle : R) : Cx R :=
  Cexp (Cmul (Cmul (Copp Ci) (ZtoC m)) (RtoC angle)).

(** [red_wig[row,col]] *)
Definition red_wig_at (beta : R) (row col : nat) : R :=
  nth col (nth row (red_wig beta) []) 0.

(** The value assigned to [Wigner[row,col]] in the loop body. *)
Definition wigner_entry (alpha beta gamma : R) (row col : nat) : Cx R :=
  let mp := nth row plus_to_minus_two 0%Z in
  let m := nth col plus_to_minus_two 0%Z in
  Cmul (Cmul (phase mp alpha) (RtoC (red_wig_at beta row col)))
       (phase m gamma).

Definition generate_wigner (eul_ang_triplet : R * R * R) : mat R :=
  let alpha := fst (fst eul_ang_triplet) in
  let beta := snd (fst eul_ang_triplet) in
  let gamma := snd eul_ang_triplet in
  fill_loop 5 5 (wigner_entry alpha beta gamma) (zeros 5 5).
End Wigner.

(** ** From the rational instance to the real one *)

Definition QtoR_C (z : Cx Q) : Cx R := (Q2R (Re z), Q2R (Im z)).
Definition QtoR_v (v : vec Q) : vec R := map QtoR_C v.
Definition QtoR_m (M : mat Q) : mat R := map QtoR_v M.

(** * Properties *)

(** ** Arrays filled by the nested loops *)

(** [lia] after the array types are unfolded to lists *)
Ltac len_lia := unfold mat, vec in *; lia.

(** Equality of two explicit arrays, entry by entry and component by
    component; [tac] closes the equations between numbers. *)
Ltac array_eq tac :=
  repeat match goal with
  | |- _ :: _ = _ :: _ => apply (f_equal2 cons)
  | |- (_, _) = (_, _) => apply (f_equal2 pair)
  | |- @nil _ = @nil _ => reflexivity
  end; tac.

(** Complex operations on the reals, unfolded to their components. *)
Ltac cx_unfold :=
  unfold Cmul, Cadd, Csub, Cconj, Copp, Cnorm2, C0, C1, RtoC, Re, Im in *;
  cbn [fst snd zero one add mul sub opp Scalar_R] in *.

Section ArrayLemmas.
Context {K : Type} {SK : Scalar K}.

Lemma upd_length (A : Type) (i : nat) (x : A) (l : list A) :
  length (upd i x l) = length l.
Proof.
  revert i; induction l as [|y l IH]; intros [|i]; simpl; auto.
Qed.

Lemma nth_upd (A : Type) (i j : nat) (x d : A) (l : list A) :
  i < length l ->
  nth j (upd i x l) d = if Nat.eqb i j then x else nth j l d.
Proof.
  revert i j; induction l as [|y l IH]; intros i j Hi; simpl in Hi.
  - lia.
  - destruct i as [|i], j as [|j]; simpl; auto.
    apply IH; lia.
Qed.

Lemma has_shape_row (n m : nat) (M : mat K) (r : nat) :
  has_shape n m M -> r < n -> length (nth r M []) = m.
Proof.
  intros [Hn Hm] Hr.
  rewrite Forall_forall in Hm. apply Hm, nth_In. len_lia.
Qed.

Lemma has_shape_mset (n m : nat) (M : mat K) (r c : nat) (v : Cx K) :
  has_shape n m M -> r < n -> has_shape n m (mset M r c v).
Proof.
  intros HM Hr. pose proof (has_shape_row HM Hr) as Hrow.
  destruct HM as [Hn Hm]. unfold mset. split.
  - now rewrite upd_length.
  - rewrite Forall_forall in *. intros row Hin.
    destruct (In_nth _ _ [] Hin) as [k [Hk Hrowk]].
    rewrite upd_length in Hk. rewrite nth_upd in Hrowk by len_lia.
    destruct (Nat.eqb r k).
    + subst row. now rewrite upd_length.
    + apply Hm. subst row. now apply nth_In.
Qed.

Lemma entry_mset (n m : nat) (M : mat K) (r c : nat) (v : Cx K)
    (r' c' : nat) :
  has_shape n m M -> r < n -> c < m ->
  entry (mset M r c v) r' c'
  = if Nat.eqb r r' && Nat.eqb c c' then v else entry M r' c'.
Proof.
  intros HM Hr Hc. pose proof (has_shape_row HM Hr) as Hrow.
  destruct HM as [Hn Hm]. unfold entry, mset.
  rewrite nth_upd by len_lia.
  destruct (Nat.eqb_spec r r') as [->|Hne]; simpl; auto.
  rewrite nth_upd by len_lia.
  destruct (Nat.eqb c c'); auto.
Qed.

(** The inner loop over the columns [cs] of row [r]. *)
Lemma column_loop_spec (n m : nat) (g : nat -> Cx K) (r : nat)
    (cs : list nat) :
  r < n -> Forall (fun c => c < m) cs ->
  forall M : mat K, has_shape n m M ->
  let M' := fold_left (fun M2 c => mset M2 r c (g c)) cs M in
  has_shape n m M' /\
  forall r' c',
    entry M' r' c'
    = if Nat.eqb r r' && existsb (Nat.eqb c') cs then g c'
      else entry M r' c'.
Proof.
  intros Hr Hcs. induction Hcs as [|c0 cs Hc0 Hcs IH]; intros M HM; simpl.
  - split; auto. intros r' c'. now rewrite Bool.andb_false_r.
  - destruct (IH (mset M r c0 (g c0)) (has_shape_mset c0 (g c0) HM Hr))
      as [Hsh Hent].
    split; auto. intros r' c'. rewrite Hent.
    rewrite (entry_mset (g c0) r' c' HM Hr Hc0).
    destruct (Nat.eqb r r'); simpl; auto.
    rewrite (Nat.eqb_sym c0 c').
    destruct (Nat.eqb_spec c' c0) as [->|Hne]; simpl.
    + now destruct (existsb (Nat.eqb c0) cs).
    + reflexivity.
Qed.

Lemma existsb_eqb_seq (k m : nat) :
  existsb (Nat.eqb k) (seq 0 m) = Nat.ltb k m.
Proof.
  destruct (Nat.ltb_spec k m) as [Hlt|Hge].
  - apply existsb_exists. exists k. split.
    + apply in_seq; lia.
    + apply Nat.eqb_refl.
  - apply Bool.not_true_is_false. intros Hex.
    apply existsb_exists in Hex. destruct Hex as [x [Hin Hx]].
    apply in_seq in Hin. apply Nat.eqb_eq in Hx. lia.
Qed.

(** The outer loop over the rows [rs]. *)
Lemma row_loop_spec (n m : nat) (f : nat -> nat -> Cx K) (rs : list nat) :
  Forall (fun r => r < n) rs ->
  forall M : mat K, has_shape n m M ->
  let M' := fold_left (fun M1 r =>
              fold_left (fun M2 c => mset M2 r c (f r c)) (seq 0 m) M1)
              rs M in
  has_shape n m M' /\
  forall r' c', c' < m ->
    entry M' r' c'
    = if existsb (Nat.eqb r') rs then f r' c' else entry M r' c'.
Proof.
  intros Hrs. induction Hrs as [|r0 rs Hr0 Hrs IH]; intros M HM; simpl.
  - split; auto.
  - assert (Hcols : Forall (fun c => c < m) (seq 0 m)).
    { apply Forall_forall. intros c Hc. apply in_seq in Hc. lia. }
    destruct (column_loop_spec (f r0) Hr0 Hcols HM) as [Hsh1 Hent1].
    destruct (IH _ Hsh1) as [Hsh Hent].
    split; auto. intros r' c' Hc'. rewrite (Hent r' c' Hc'), Hent1.
    rewrite existsb_eqb_seq.
    destruct (Nat.ltb_spec c' m) as [_|Hge]; [|lia].
    rewrite Bool.andb_true_r, (Nat.eqb_sym r0 r').
    destruct (Nat.eqb_spec r' r0) as [->|Hne]; simpl.
    + now destruct (existsb (Nat.eqb r0) rs).
    + reflexivity.
Qed.

Lemma has_shape_zeros (n m : nat) : has_shape n m (zeros n m : mat K).
Proof.
  unfold zeros. split.
  - apply repeat_length.
  - apply Forall_forall. intros row Hin.
    apply repeat_spec in Hin. subst row. apply repeat_length.
Qed.

Lemma has_shape_fill_loop (n m : nat) (f : nat -> nat -> Cx K)
    (M : mat K) :
  has_shape n m M -> has_shape n m (fill_loop n m f M).
Proof.
  intros HM. unfold fill_loop. apply row_loop_spec; auto.
  apply Forall_forall. intros r Hr. apply in_seq in Hr. lia.
Qed.

Lemma entry_fill_loop (n m : nat) (f : nat -> nat -> Cx K) (M : mat K)
    (r c : nat) :
  has_shape n m M -> r < n -> c < m ->
  entry (fill_loop n m f M) r c = f r c.
Proof.
  intros HM Hr Hc. unfold fill_loop.
  assert (Hrows : Forall (fun r => r < n) (seq 0 n)).
  { apply Forall_forall. intros k Hk. apply in_seq in Hk. lia. }
  destruct (row_loop_spec f Hrows HM) as [_ Hent].
  rewrite (Hent r c Hc), existsb_eqb_seq.
  destruct (Nat.ltb_spec r n); [reflexivity | lia].
Qed.

Lemma has_shape_tabulate (n m : nat) (f : nat -> nat -> Cx K) :
  has_shape n m (tabulate n m f).
Proof.
  unfold tabulate. split.
  - now rewrite length_map, length_seq.
  - apply Forall_forall. intros row Hin. apply in_map_iff in Hin.
    destruct Hin as [r [<- _]]. now rewrite length_map, length_seq.
Qed.

Lemma entry_tabulate (n m : nat) (f : nat -> nat -> Cx K) (r c : nat) :
  r < n -> c < m -> entry (tabulate n m f) r c = f r c.
Proof.
  intros Hr Hc. unfold entry, tabulate.
  rewrite (nth_indep _ [] (map (f 0%nat) (seq 0 m)))
    by (now rewrite length_map, length_seq).
  rewrite (map_nth (fun r => map (f r) (seq 0 m)) (seq 0 n) 0%nat r).
  rewrite seq_nth by assumption. simpl.
  rewrite (nth_indep _ C0 (f r 0%nat))
    by (now rewrite length_map, length_seq).
  rewrite (map_nth (f r) (seq 0 m) 0%nat c).
  now rewrite seq_nth.
Qed.

(** Two arrays of one shape with equal entries are equal. *)
Lemma mat_ext (n m : nat) (A B : mat K) :
  has_shape n m A -> has_shape n m B ->
  (forall r c, r < n -> c < m -> entry A r c = entry B r c) ->
  A = B.
Proof.
  intros HA HB Hent.
  apply (nth_ext A B [] []).
  - destruct HA, HB; congruence.
  - intros r Hr. destruct HA as [HAn HAm].
    assert (Hrn : r < n) by len_lia.
    apply (nth_ext _ _ C0 C0).
    + rewrite (has_shape_row (conj HAn HAm) Hrn).
      now rewrite (has_shape_row HB Hrn).
    + intros c Hc.
      rewrite (has_shape_row (conj HAn HAm) Hrn) in Hc.
      now apply Hent.
Qed.

Lemma tabulate_ext (n m : nat) (f g : nat -> nat -> Cx K) :
  (forall r c, r < n -> c < m -> f r c = g r c) ->
  tabulate n m f = tabulate n m g.
Proof.
  intros Hfg. apply (@mat_ext n m).
  - apply has_shape_tabulate.
  - apply has_shape_tabulate.
  - intros r c Hr Hc. rewrite !entry_tabulate by assumption.
    now apply Hfg.
Qed.

Lemma fill_loop_tabulate (n m : nat) (f : nat -> nat -> Cx K) (M : mat K) :
  has_shape n m M -> fill_loop n m f M = tabulate n m f.
Proof.
  intros HM. apply (@mat_ext n m).
  - now apply has_shape_fill_loop.
  - apply has_shape_tabulate.
  - intros r c Hr Hc.
    now rewrite entry_fill_loop, entry_tabulate.
Qed.
End ArrayLemmas.

(** ** The rational instance computes the real one *)

Section Transfer.
Local Open Scope R_scope.

Ltac scalar_ops :=
  cbn [zero one add mul sub opp div of_Z Scalar_Q Scalar_R] in *.

Lemma Q2R_Qred (q : Q) : Q2R (Qred q) = Q2R q.
Proof. apply Qeq_eqR, Qred_correct. Qed.

Lemma Q2R_zero : Q2R zero = zero.
Proof. unfold Q2R; simpl; lra. Qed.

Lemma Q2R_one : Q2R one = one.
Proof. unfold Q2R; simpl; lra. Qed.

Lemma Q2R_of_Z (n : Z) : Q2R (of_Z n) = of_Z n.
Proof. unfold Q2R; simpl; lra. Qed.

Lemma Q2R_add (a b : Q) : Q2R (add a b) = add (Q2R a) (Q2R b).
Proof. scalar_ops. now rewrite Q2R_Qred, Q2R_plus. Qed.

Lemma Q2R_mul (a b : Q) : Q2R (mul a b) = mul (Q2R a) (Q2R b).
Proof. scalar_ops. now rewrite Q2R_Qred, Q2R_mult. Qed.

Lemma Q2R_sub (a b : Q) : Q2R (sub a b) = sub (Q2R a) (Q2R b).
Proof. scalar_ops. now rewrite Q2R_Qred, Q2R_minus. Qed.

Lemma Q2R_opp' (a : Q) : Q2R (opp a) = opp (Q2R a).
Proof. scalar_ops. apply Q2R_opp. Qed.

Lemma Q2R_div' (a b : Q) :
  Q2R b <> 0 -> Q2R (div a b) = div (Q2R a) (Q2R b).
Proof.
  intros Hb. scalar_ops. rewrite Q2R_Qred. apply Q2R_div.
  intros Hq. apply Hb. rewrite (Qeq_eqR _ _ Hq). apply Q2R_zero.
Qed.

Lemma Q2R_half : Q2R half = half.
Proof.
  unfold half. rewrite Q2R_div'; rewrite !Q2R_of_Z; scalar_ops; [reflexivity|lra].
Qed.

Lemma QtoR_C0 : QtoR_C C0 = C0.
Proof. unfold QtoR_C, C0, Re, Im; cbn [fst snd]. now rewrite Q2R_zero. Qed.

Lemma QtoR_RtoC (x : Q) : QtoR_C (RtoC x) = RtoC (Q2R x).
Proof. unfold QtoR_C, RtoC, Re, Im; cbn [fst snd]. now rewrite Q2R_zero. Qed.

Lemma QtoR_pair (a b : Q) : QtoR_C (a, b) = (Q2R a, Q2R b).
Proof. reflexivity. Qed.

Lemma QtoR_ZtoC (n : Z) : QtoR_C (ZtoC n) = ZtoC n.
Proof. unfold ZtoC. now rewrite QtoR_RtoC, Q2R_of_Z. Qed.

Lemma QtoR_Cadd (z w : Cx Q) :
  QtoR_C (Cadd z w) = Cadd (QtoR_C z) (QtoR_C w).
Proof. unfold QtoR_C, Cadd, Re, Im; cbn [fst snd]. now rewrite !Q2R_add. Qed.

Lemma QtoR_Csub (z w : Cx Q) :
  QtoR_C (Csub z w) = Csub (QtoR_C z) (QtoR_C w).
Proof. unfold QtoR_C, Csub, Re, Im; cbn [fst snd]. now rewrite !Q2R_sub. Qed.

Lemma QtoR_Cmul (z w : Cx Q) :
  QtoR_C (Cmul z w) = Cmul (QtoR_C z) (QtoR_C w).
Proof.
  unfold QtoR_C, Cmul, Re, Im; cbn [fst snd].
  now rewrite Q2R_add, Q2R_sub, !Q2R_mul.
Qed.

Lemma Q2R_Cnorm2 (z : Cx Q) : Q2R (Cnorm2 z) = Cnorm2 (QtoR_C z).
Proof.
  unfold QtoR_C, Cnorm2, Re, Im; cbn [fst snd].
  now rewrite Q2R_add, !Q2R_mul.
Qed.

Lemma QtoR_Cdiv (z w : Cx Q) :
  Qeq_bool (Cnorm2 w) 0 = false ->
  QtoR_C (Cdiv z w) = Cdiv (QtoR_C z) (QtoR_C w).
Proof.
  intros Hw.
  assert (Hn : Q2R (Cnorm2 w) <> 0).
  { intros H0. apply Qeq_bool_neq in Hw. apply Hw.
    apply eqR_Qeq. rewrite H0. symmetry. apply Q2R_zero. }
  unfold QtoR_C at 1, Cdiv, Re, Im; cbn [fst snd].
  rewrite !Q2R_div' by exact Hn.
  rewrite Q2R_add, Q2R_sub, !Q2R_mul, Q2R_Cnorm2.
  reflexivity.
Qed.

(** A complex rational with non-zero squared modulus maps to a non-zero
    complex number. *)
Lemma QtoR_C_nonzero (z : Cx Q) :
  Qeq_bool (Cnorm2 z) 0 = false -> QtoR_C z <> C0.
Proof.
  intros Hz Heq. apply Qeq_bool_neq in Hz. apply Hz.
  apply eqR_Qeq. rewrite Q2R_Cnorm2, Heq.
  unfold Cnorm2, C0, Re, Im; cbn [fst snd]. scalar_ops. lra.
Qed.

Lemma map_zipWith (A B X A' B' X' : Type) (f : A -> B -> X)
    (g : A' -> B' -> X') (h : X -> X') (ha : A -> A') (hb : B -> B') :
  (forall a b, h (f a b) = g (ha a) (hb b)) ->
  forall u v, map h (zipWith f u v) = zipWith g (map ha u) (map hb v).
Proof.
  intros Hfg. induction u as [|a u IH]; intros [|b v]; simpl; auto.
  now rewrite Hfg, IH.
Qed.

Lemma QtoR_vscale (a : Cx Q) (v : vec Q) :
  QtoR_v (vscale a v) = vscale (QtoR_C a) (QtoR_v v).
Proof.
  unfold QtoR_v, vscale. rewrite !map_map.
  apply map_ext. intros x. apply QtoR_Cmul.
Qed.

Lemma QtoR_mscale (a : Cx Q) (M : mat Q) :
  QtoR_m (mscale a M) = mscale (QtoR_C a) (QtoR_m M).
Proof.
  unfold QtoR_m, mscale. rewrite !map_map.
  apply map_ext. intros x. apply QtoR_vscale.
Qed.

Lemma QtoR_madd (A B : mat Q) :
  QtoR_m (madd A B) = madd (QtoR_m A) (QtoR_m B).
Proof.
  unfold QtoR_m, madd. apply map_zipWith. intros u v.
  apply map_zipWith. apply QtoR_Cadd.
Qed.

Lemma QtoR_msub (A B : mat Q) :
  QtoR_m (msub A B) = msub (QtoR_m A) (QtoR_m B).
Proof.
  unfold QtoR_m, msub. apply map_zipWith. intros u v.
  apply map_zipWith. apply QtoR_Csub.
Qed.

Lemma QtoR_nth_v (v : vec Q) (j : nat) :
  QtoR_C (nth j v C0) = nth j (QtoR_v v) C0.
Proof.
  unfold QtoR_v. rewrite <- QtoR_C0. symmetry. apply map_nth.
Qed.

Lemma QtoR_nth_m (M : list (vec Q)) (r : nat) :
  QtoR_v (nth r M []) = nth r (map QtoR_v M) [].
Proof. symmetry. apply (map_nth QtoR_v M [] r). Qed.

Lemma QtoR_transpose (M : mat Q) :
  QtoR_m (transpose M) = transpose (QtoR_m M).
Proof.
  destruct M as [|r0 M]; [reflexivity|].
  unfold transpose.
  change (QtoR_m (r0 :: M)) with (QtoR_v r0 :: QtoR_m M). cbv iota.
  replace (length (QtoR_v r0)) with (length r0)
    by (unfold QtoR_v; now rewrite length_map).
  unfold QtoR_m at 1. rewrite map_map.
  apply map_ext. intros j.
  change (QtoR_v r0 :: QtoR_m M) with (QtoR_m (r0 :: M)).
  unfold QtoR_v at 1, QtoR_m. rewrite !map_map.
  apply map_ext. intros row. apply QtoR_nth_v.
Qed.

Lemma QtoR_kron_row (ra rb : vec Q) :
  QtoR_v (flat_map (fun a => map (Cmul a) rb) ra)
  = flat_map (fun a => map (Cmul a) (QtoR_v rb)) (QtoR_v ra).
Proof.
  induction ra as [|a ra IH]; [reflexivity|].
  simpl. unfold QtoR_v at 1. rewrite map_app. f_equal.
  - apply (QtoR_vscale a rb).
  - apply IH.
Qed.

Lemma QtoR_kron (A B : mat Q) :
  QtoR_m (kron A B) = kron (QtoR_m A) (QtoR_m B).
Proof.
  unfold kron. induction A as [|ra A IH]; [reflexivity|].
  simpl. unfold QtoR_m at 1. rewrite map_app. f_equal.
  - unfold QtoR_m. rewrite !map_map. apply map_ext.
    intros rb. apply QtoR_kron_row.
  - apply IH.
Qed.

Lemma QtoR_flatten (M : mat Q) :
  QtoR_v (flatten M) = flatten (QtoR_m M).
Proof. unfold QtoR_v, flatten, QtoR_m. apply concat_map. Qed.

Lemma QtoR_fold_Cadd (l : list (Cx Q)) (acc : Cx Q) :
  QtoR_C (fold_left Cadd l acc) = fold_left Cadd (QtoR_v l) (QtoR_C acc).
Proof.
  revert acc; induction l as [|x l IH]; intros acc; simpl; auto.
  now rewrite IH, QtoR_Cadd.
Qed.

Lemma QtoR_dot (u v : vec Q) :
  QtoR_C (dot u v) = dot (QtoR_v u) (QtoR_v v).
Proof.
  unfold dot. rewrite QtoR_fold_Cadd, QtoR_C0. f_equal.
  apply map_zipWith. apply QtoR_Cmul.
Qed.

Lemma QtoR_mv (M : mat Q) (v : vec Q) :
  QtoR_v (mv M v) = mv (QtoR_m M) (QtoR_v v).
Proof.
  unfold mv, QtoR_v at 1, QtoR_m. rewrite !map_map.
  apply map_ext. intros row. apply QtoR_dot.
Qed.

Lemma QtoR_trace_inner (A B : mat Q) :
  QtoR_C (trace_inner A B) = trace_inner (QtoR_m A) (QtoR_m B).
Proof.
  unfold trace_inner.
  now rewrite QtoR_dot, !QtoR_flatten, QtoR_transpose.
Qed.
End Transfer.

Create Rewrite HintDb q2r.
#[export] Hint Rewrite
  QtoR_mscale QtoR_vscale QtoR_madd QtoR_msub QtoR_kron QtoR_transpose
  QtoR_flatten QtoR_dot QtoR_mv QtoR_RtoC QtoR_ZtoC QtoR_pair
  Q2R_zero Q2R_one Q2R_opp' Q2R_half : q2r.

(** ** create_superoperator.py: the constants of the script *)

Section ScriptTransfer.
Import Superoperator.

Ltac q2r :=
  autorewrite with q2r; cbn [QtoR_m QtoR_v map];
  autorewrite with q2r; try reflexivity.

Lemma QtoR_uni : QtoR_m uni = uni.
Proof. unfold uni. q2r. Qed.

Lemma QtoR_Ix : QtoR_m Ix = Ix.
Proof. unfold Ix. q2r. Qed.

Lemma QtoR_Iy : QtoR_m Iy = Iy.
Proof. unfold Iy. q2r. Qed.

Lemma QtoR_Iz : QtoR_m Iz = Iz.
Proof. unfold Iz. q2r. Qed.

#[local] Hint Rewrite QtoR_uni QtoR_Ix QtoR_Iy QtoR_Iz : q2r.

Lemma QtoR_product_operators :
  map QtoR_m product_operators = product_operators.
Proof.
  unfold product_operators, E, pIx, pIy, pIz, pSx, pSy, pSz, pIxSz, pIySz,
    pIzSx, pIzSy, pIxSx, pIxSy, pIySx, pIySy, pIzSz.
  cbn [map]. autorewrite with q2r. reflexivity.
Qed.

Lemma QtoR_product_operator (k : nat) :
  QtoR_m (nth k product_operators []) = nth k product_operators [].
Proof.
  rewrite <- QtoR_product_operators.
  symmetry. apply (map_nth QtoR_m product_operators [] k).
Qed.

Lemma QtoR_E : QtoR_m E = E.
Proof. exact (QtoR_product_operator 0). Qed.

Lemma QtoR_H : QtoR_m H = H.
Proof.
  unfold H. autorewrite with q2r.
  rewrite (QtoR_product_operator 1 : QtoR_m pIx = pIx),
          (QtoR_product_operator 2 : QtoR_m pIy = pIy),
          (QtoR_product_operator 3 : QtoR_m pIz = pIz),
          (QtoR_product_operator 4 : QtoR_m pSx = pSx),
          (QtoR_product_operator 5 : QtoR_m pSy = pSy),
          (QtoR_product_operator 6 : QtoR_m pSz = pSz),
          (QtoR_product_operator 11 : QtoR_m pIxSx = pIxSx),
          (QtoR_product_operator 14 : QtoR_m pIySy = pIySy),
          (QtoR_product_operator 15 : QtoR_m pIzSz = pIzSz).
  reflexivity.
Qed.

Lemma QtoR_toSuperoperator (H0 : mat Q) :
  QtoR_m (toSuperoperator H0) = toSuperoperator (QtoR_m H0).
Proof. unfold toSuperoperator. autorewrite with q2r. now rewrite QtoR_E. Qed.

Lemma QtoR_Hs : QtoR_m Hs = Hs.
Proof. unfold Hs. now rewrite QtoR_toSuperoperator, QtoR_H. Qed.

Lemma QtoR_vector_operators :
  map QtoR_v vector_operators = vector_operators.
Proof.
  unfold vector_operators, vE, vIx, vIy, vIz, vSx, vSy, vSz, vIxSz, vIySz,
    vIzSx, vIzSy, vIxSx, vIxSy, vIySx, vIySy, vIzSz.
  cbn [map]. autorewrite with q2r.
  rewrite
    (QtoR_product_operator 0 : QtoR_m E = E),
    (QtoR_product_operator 1 : QtoR_m pIx = pIx),
    (QtoR_product_operator 2 : QtoR_m pIy = pIy),
    (QtoR_product_operator 3 : QtoR_m pIz = pIz),
    (QtoR_product_operator 4 : QtoR_m pSx = pSx),
    (QtoR_product_operator 5 : QtoR_m pSy = pSy),
    (QtoR_product_operator 6 : QtoR_m pSz = pSz),
    (QtoR_product_operator 7 : QtoR_m pIxSz = pIxSz),
    (QtoR_product_operator 8 : QtoR_m pIySz = pIySz),
    (QtoR_product_operator 9 : QtoR_m pIzSx = pIzSx),
    (QtoR_product_operator 10 : QtoR_m pIzSy = pIzSy),
    (QtoR_product_operator 11 : QtoR_m pIxSx = pIxSx),
    (QtoR_product_operator 12 : QtoR_m pIxSy = pIxSy),
    (QtoR_product_operator 13 : QtoR_m pIySx = pIySx),
    (QtoR_product_operator 14 : QtoR_m pIySy = pIySy),
    (QtoR_product_operator 15 : QtoR_m pIzSz = pIzSz).
  reflexivity.
Qed.

Lemma QtoR_vector_operator (k : nat) :
  QtoR_v (nth k vector_operators []) = nth k vector_operators [].
Proof.
  rewrite <- QtoR_vector_operators. apply QtoR_nth_m.
Qed.

(** The entry computed on the reals is the image of the entry computed
    on the rationals, as soon as the rational divisor is not zero. *)
Lemma QtoR_Hsp_entry (r c : nat) :
  Qeq_bool (Cnorm2 (dot (nth r vector_operators [])
                        (nth r vector_operators []))) 0 = false ->
  QtoR_C (Hsp_entry r c) = Hsp_entry r c.
Proof.
  intros Hden. unfold Hsp_entry. cbv zeta.
  rewrite QtoR_Cdiv by exact Hden.
  rewrite !QtoR_dot, QtoR_mv, QtoR_Hs, !QtoR_vector_operator.
  reflexivity.
Qed.
End ScriptTransfer.

(** ** create_superoperator.py: the projected superoperator *)

Section Projection.
Import Superoperator.

Lemma forallb_seq (p : nat -> bool) (n k : nat) :
  forallb p (seq 0 n) = true -> k < n -> p k = true.
Proof.
  intros Hall Hk. rewrite forallb_forall in Hall.
  apply Hall, in_seq. lia.
Qed.

Lemma QtoR_C_eq_ZtoC (z : Cx Q) (n : Z) :
  Qeq_bool (Re z) (inject_Z n) && Qeq_bool (Im z) 0 = true ->
  QtoR_C z = ZtoC n.
Proof.
  intros Hz. apply andb_prop in Hz. destruct Hz as [Hre Him].
  apply Qeq_bool_eq, Qeq_eqR in Hre. apply Qeq_bool_eq, Qeq_eqR in Him.
  unfold QtoR_C, ZtoC, RtoC. rewrite Hre, Him.
  rewrite (Q2R_of_Z n : Q2R (inject_Z n) = IZR n).
  rewrite (Q2R_zero : Q2R 0 = 0%R). reflexivity.
Qed.

(** On the rationals, no basis vector has a zero product with itself. *)
Lemma self_dot_Q :
  forallb (fun r =>
    negb (Qeq_bool (Cnorm2 (dot (nth r (@vector_operators Q _) [])
                                (nth r (@vector_operators Q _) []))) 0))
    (seq 0 16) = true.
Proof. vm_compute. reflexivity. Qed.

Lemma self_dot_Q_at (r : nat) :
  r < 16 ->
  Qeq_bool (Cnorm2 (dot (nth r (@vector_operators Q _) [])
                        (nth r (@vector_operators Q _) []))) 0 = false.
Proof.
  intros Hr. apply Bool.negb_true_iff.
  exact (forallb_seq _ self_dot_Q Hr).
Qed.

(** The entries of the real superoperator are the images of the
    rational ones. *)
Lemma Hsp_entry_R (r c : nat) :
  r < 16 -> c < 16 ->
  entry (@Hsp R _) r c = QtoR_C (@Hsp_entry Q _ r c).
Proof.
  intros Hr Hc. unfold Hsp.
  rewrite entry_fill_loop by (auto using has_shape_zeros).
  symmetry. apply QtoR_Hsp_entry. now apply self_dot_Q_at.
Qed.

Lemma Hsp_real_parts_Q :
  forallb (fun r => forallb (fun c =>
    Qeq_bool (Re (@Hsp_entry Q _ r c)) 0) (seq 0 16)) (seq 0 16) = true.
Proof. vm_compute. reflexivity. Qed.

Lemma Hsp_diagonal_Q :
  forallb (fun r =>
    Qeq_bool (Re (@Hsp_entry Q _ r r)) (inject_Z 0)
    && Qeq_bool (Im (@Hsp_entry Q _ r r)) 0) (seq 0 16) = true.
Proof. vm_compute. reflexivity. Qed.
End Projection.

(** ** create_superoperator.py: the claims *)

Section SuperoperatorClaims.
Import Superoperator.
Local Open Scope R_scope.

(** C1.  Over any number field, the projected superoperator [Hsp] is a
    16x16 matrix, and its entry (r, c) is
    (basis[r] . Hs . basis[c]) / (basis[r] . basis[r]), where the basis is
    the list of the row-major flattenings of the product operators in
    the order 1/2*identity, Ix, Iy, Iz, Sx, Sy, Sz, IxSz, IySz, IzSx,
    IzSy, IxSx, IxSy, IySx, IySy, IzSz, and only the identity vector
    is scaled by 1/2. *)
Theorem projected_entry (K : Type) (SK : Scalar K) (r c : nat) :
  (r < 16)%nat -> (c < 16)%nat ->
  let basis : list (vec K) :=
    [vscale (RtoC half) (flatten E);
     flatten pIx; flatten pIy; flatten pIz;
     flatten pSx; flatten pSy; flatten pSz;
     flatten pIxSz; flatten pIySz; flatten pIzSx; flatten pIzSy;
     flatten pIxSx; flatten pIxSy; flatten pIySx; flatten pIySy;
     flatten pIzSz] in
  has_shape 16 16 (@Hsp K SK) /\
  entry Hsp r c
  = Cdiv (dot (nth r basis []) (mv (toSuperoperator H) (nth c basis [])))
         (dot (nth r basis []) (nth r basis [])).
Proof.
  intros Hr Hc basis. split.
  - unfold Hsp. apply has_shape_fill_loop, has_shape_zeros.
  - unfold Hsp.
    rewrite entry_fill_loop by (auto using has_shape_zeros).
    reflexivity.
Qed.

Lemma projected_entry_witness :
  (3 < 16)%nat /\ (1 < 16)%nat /\
  has_shape 16 16 (@Hsp Q _) /\
  entry (@Hsp Q _) 3 1
  = Cdiv (dot (flatten pIz) (mv (toSuperoperator H) (flatten pIx)))
         (dot (flatten pIz) (flatten pIz)).
Proof.
  split; [lia | split; [lia | apply (@projected_entry Q _ 3 1); lia]].
Defined.

(** C2.  For the Hamiltonian of the script (Iz=1, Sz=2,
    IxSx=IySy=IzSz=3, Ix=Sx=4, Iy=Sy=5), every entry of the projected
    superoperator has real part exactly zero. *)
Theorem projected_real_part_zero (r c : nat) :
  (r < 16)%nat -> (c < 16)%nat -> Re (entry (@Hsp R _) r c) = 0.
Proof.
  intros Hr Hc. rewrite Hsp_entry_R by assumption.
  pose proof (forallb_seq _ (forallb_seq _ Hsp_real_parts_Q Hr) Hc) as Hq.
  cbv beta in Hq. apply Qeq_bool_eq, Qeq_eqR in Hq.
  unfold QtoR_C, Re at 1. cbn [fst]. rewrite Hq. apply Q2R_zero.
Qed.

Lemma projected_real_part_zero_witness :
  (1 < 16)%nat /\ (2 < 16)%nat /\ Re (entry (@Hsp R _) 1 2) = 0.
Proof.
  split; [lia | split; [lia | apply (@projected_real_part_zero 1 2); lia]].
Defined.

(** C9.  Every diagonal entry of the projected superoperator of the
    script's Hamiltonian is exactly zero, real and imaginary part. *)
Theorem projected_diagonal_zero (r : nat) :
  (r < 16)%nat -> entry (@Hsp R _) r r = C0.
Proof.
  intros Hr. rewrite Hsp_entry_R by assumption.
  pose proof (forallb_seq _ Hsp_diagonal_Q Hr) as Hq. cbv beta in Hq.
  now rewrite (QtoR_C_eq_ZtoC _ 0 Hq).
Qed.

Lemma projected_diagonal_zero_witness :
  (7 < 16)%nat /\ entry (@Hsp R _) 7 7 = C0.
Proof.
  split; [lia | apply (@projected_diagonal_zero 7); lia].
Defined.

(** C8.  For every row index r in 0..15 the product of the r-th basis
    vector with itself, the divisor of the entries of row r, is not
    zero. *)
Theorem self_dot_nonzero (r : nat) :
  (r < 16)%nat ->
  dot (nth r (@vector_operators R _) []) (nth r vector_operators []) <> C0.
Proof.
  intros Hr. rewrite <- !QtoR_vector_operator, <- QtoR_dot.
  apply QtoR_C_nonzero. now apply self_dot_Q_at.
Qed.

Lemma self_dot_nonzero_witness :
  (2 < 16)%nat /\ dot (@vIy R _) vIy <> C0.
Proof.
  split; [lia | apply (@self_dot_nonzero 2); lia].
Defined.
End SuperoperatorClaims.

(** ** create_superoperator.py: the product operators *)

Section ProductOperators.
Import Superoperator.
Local Open Scope R_scope.

Lemma trace_inner_Q :
  forallb (fun i => forallb (fun j =>
    let t := trace_inner (nth i (@product_operators Q _) [])
                         (nth j (@product_operators Q _) []) in
    Qeq_bool (Re t)
      (inject_Z (if Nat.eqb i j then if Nat.eqb i 0 then 4 else 1 else 0))
    && Qeq_bool (Im t) 0) (seq 0 16)) (seq 0 16) = true.
Proof. vm_compute. reflexivity. Qed.

(** C3, as the code has it.  The sixteen product operators are pairwise
    orthogonal under the trace inner product; the identity has squared
    norm 4 and each of the other fifteen has squared norm 1. *)
Theorem product_operators_orthogonal (i j : nat) :
  (i < 16)%nat -> (j < 16)%nat ->
  trace_inner (nth i (@product_operators R _) [])
              (nth j (@product_operators R _) [])
  = ZtoC (if Nat.eqb i j then if Nat.eqb i 0 then 4 else 1 else 0).
Proof.
  intros Hi Hj.
  rewrite <- !QtoR_product_operator, <- QtoR_trace_inner.
  apply QtoR_C_eq_ZtoC.
  exact (forallb_seq _ (forallb_seq _ trace_inner_Q Hi) Hj).
Qed.

Lemma product_operators_orthogonal_witness :
  (2 < 16)%nat /\ (10 < 16)%nat /\ trace_inner (@pIy R _) pIzSy = ZtoC 0.
Proof.
  split; [lia | split; [lia | apply (@product_operators_orthogonal 2 10); lia]].
Defined.

(** C3, as stated, fails at the operator Ix: its squared norm under the
    trace inner product is 1, not 4. *)
Lemma squared_norm_pIx_not_4 :
  trace_inner (@pIx R _) pIx = ZtoC 1 /\
  trace_inner (@pIx R _) pIx <> ZtoC 4.
Proof.
  assert (Hn : trace_inner (@pIx R _) pIx = ZtoC 1).
  { rewrite <- (QtoR_product_operator 1 : QtoR_m pIx = pIx).
    rewrite <- QtoR_trace_inner. apply QtoR_C_eq_ZtoC.
    vm_compute. reflexivity. }
  split; [exact Hn|].
  rewrite Hn. unfold ZtoC, RtoC. intros Heq.
  apply (f_equal fst) in Heq. cbn [fst of_Z Scalar_R] in Heq. lra.
Qed.
End ProductOperators.

(** ** create_superoperator.py: the commutator superoperator *)

Section Linearity.
Import Superoperator.
Local Open Scope R_scope.

Lemma length_4_inv (A : Type) (l : list A) :
  length l = 4%nat -> exists a b c d, l = [a; b; c; d].
Proof.
  destruct l as [|a [|b [|c [|d [|e l]]]]]; simpl; try discriminate.
  intros _. now exists a, b, c, d.
Qed.

Lemma has_shape_4_4_inv (M : mat R) :
  has_shape 4 4 M ->
  exists a0 a1 a2 a3 b0 b1 b2 b3 c0 c1 c2 c3 d0 d1 d2 d3 : Cx R,
    M = [[a0; a1; a2; a3]; [b0; b1; b2; b3];
         [c0; c1; c2; c3]; [d0; d1; d2; d3]].
Proof.
  intros [Hlen Hrows].
  destruct (length_4_inv _ Hlen) as [ra [rb [rc [rd ->]]]].
  inversion Hrows as [|? ? Ha Hrows1]; subst.
  inversion Hrows1 as [|? ? Hb Hrows2]; subst.
  inversion Hrows2 as [|? ? Hc Hrows3]; subst.
  inversion Hrows3 as [|? ? Hd _]; subst.
  destruct (length_4_inv _ Ha) as [a0 [a1 [a2 [a3 ->]]]].
  destruct (length_4_inv _ Hb) as [b0 [b1 [b2 [b3 ->]]]].
  destruct (length_4_inv _ Hc) as [c0 [c1 [c2 [c3 ->]]]].
  destruct (length_4_inv _ Hd) as [d0 [d1 [d2 [d3 ->]]]].
  now exists a0, a1, a2, a3, b0, b1, b2, b3, c0, c1, c2, c3, d0, d1, d2, d3.
Qed.

Ltac script_cbv :=
  cbv [toSuperoperator msub madd mscale vscale kron transpose E uni zeros
       zipWith map flat_map app seq length nth repeat
       Cmul Cadd Csub C0 RtoC Re Im fst snd
       zero one add mul sub Scalar_R].

(** C5.  The construction Hs = kron(H, E^T) - kron(E, H^T) is linear in
    the 4x4 Hamiltonian: for all complex 4x4 matrices H1, H2 and all
    complex scalars a, b, toSuperoperator(a*H1 + b*H2) =
    a*toSuperoperator(H1) + b*toSuperoperator(H2); and the 4x4 zero
    matrix is sent to the 16x16 zero matrix. *)
Theorem toSuperoperator_linear (a b : Cx R) (H1 H2 : mat R) :
  has_shape 4 4 H1 -> has_shape 4 4 H2 ->
  toSuperoperator (madd (mscale a H1) (mscale b H2))
  = madd (mscale a (toSuperoperator H1)) (mscale b (toSuperoperator H2))
  /\ toSuperoperator (zeros 4 4 : mat R) = zeros 16 16.
Proof.
  intros Hs1 Hs2. split.
  - destruct (has_shape_4_4_inv Hs1)
      as [[x00 y00] [[x01 y01] [[x02 y02] [[x03 y03]
         [[x10 y10] [[x11 y11] [[x12 y12] [[x13 y13]
         [[x20 y20] [[x21 y21] [[x22 y22] [[x23 y23]
         [[x30 y30] [[x31 y31] [[x32 y32] [[x33 y33] ->]]]]]]]]]]]]]]]].
    destruct (has_shape_4_4_inv Hs2)
      as [[u00 v00] [[u01 v01] [[u02 v02] [[u03 v03]
         [[u10 v10] [[u11 v11] [[u12 v12] [[u13 v13]
         [[u20 v20] [[u21 v21] [[u22 v22] [[u23 v23]
         [[u30 v30] [[u31 v31] [[u32 v32] [[u33 v33] ->]]]]]]]]]]]]]]]].
    destruct a as [ar ai], b as [br bi].
    script_cbv. array_eq ltac:(ring).
  - script_cbv. array_eq ltac:(ring).
Qed.

Lemma toSuperoperator_linear_witness :
  has_shape 4 4 (@pIz R _) /\ has_shape 4 4 (@pSx R _) /\
  toSuperoperator (madd (mscale (ZtoC 2) (@pIz R _)) (mscale Ci (@pSx R _)))
  = madd (mscale (ZtoC 2) (toSuperoperator pIz))
         (mscale Ci (toSuperoperator pSx))
  /\ toSuperoperator (zeros 4 4 : mat R) = zeros 16 16.
Proof.
  assert (Hz : has_shape 4 4 (@pIz R _))
    by (split; [reflexivity | repeat constructor]).
  assert (Hx : has_shape 4 4 (@pSx R _))
    by (split; [reflexivity | repeat constructor]).
  split; [exact Hz | split; [exact Hx |]].
  exact (@toSuperoperator_linear (ZtoC 2) Ci pIz pSx Hz Hx).
Defined.
End Linearity.

(** ** create_superoperator.py: the Hamiltonian *)

Section Hamiltonian.
Import Superoperator.
Local Open Scope R_scope.

(** Line 91 is the coefficient-weighted sum of the sixteen product
    operators for the coefficients it writes down: Iz=1, Sz=2,
    IxSx=IySy=IzSz=3, Ix=Sx=4, Iy=Sy=5 and 0 for every other operator. *)
Lemma H_weighted_sum : @H R _ = weighted_sum reference_coefficients.
Proof.
  cbv [H weighted_sum reference_coefficients product_operators
       E pIx pIy pIz pSx pSy pSz pIxSz pIySz pIzSx pIzSy
       pIxSx pIxSy pIySx pIySy pIzSz uni Ix Iy Iz
       madd mscale vscale kron zeros fold_left
       zipWith map flat_map app repeat
       Cmul Cadd C0 RtoC ZtoC half Re Im fst snd
       zero one add mul sub opp div of_Z Scalar_R].
  array_eq ltac:(lra).
Qed.
End Hamiltonian.

(** ** homemade_wigner.py *)

Section WignerFacts.
Import Wigner.
Local Open Scope R_scope.

Lemma generate_wigner_tabulate (alpha beta gamma : R) :
  generate_wigner (alpha, beta, gamma)
  = tabulate 5 5 (wigner_entry alpha beta gamma).
Proof.
  unfold generate_wigner. cbn [fst snd].
  apply fill_loop_tabulate, has_shape_zeros.
Qed.

(** *** The phase factors *)

Lemma phase_val (m : Z) (t : R) :
  phase m t = (cos (IZR m * t), - sin (IZR m * t)).
Proof.
  unfold phase, Cexp, Cmul, Copp, Ci, ZtoC, RtoC, Re, Im.
  cbn [fst snd zero one add mul sub opp of_Z Scalar_R].
  replace ((- 0 * IZR m - - (1) * 0) * t - (- 0 * 0 + - (1) * IZR m) * 0)
    with 0 by ring.
  replace ((- 0 * IZR m - - (1) * 0) * 0 + (- 0 * 0 + - (1) * IZR m) * t)
    with (- (IZR m * t)) by ring.
  rewrite exp_0, cos_neg, sin_neg. f_equal; ring.
Qed.

Lemma phase_unit (m : Z) (t : R) : Cnorm2 (phase m t) = 1.
Proof.
  rewrite phase_val. cx_unfold.
  pose proof (sin2_cos2 (IZR m * t)) as Hsc. unfold Rsqr in Hsc. lra.
Qed.

Lemma phase_add (m : Z) (s t : R) :
  Cmul (Cmul (phase m s) (RtoC 1)) (phase m t) = phase m (s + t).
Proof.
  rewrite !phase_val, Rmult_plus_distr_l, cos_plus, sin_plus.
  cx_unfold. array_eq ltac:(ring).
Qed.

Lemma phase_0 (m : Z) : phase m 0 = C1.
Proof.
  rewrite phase_val, Rmult_0_r, cos_0, sin_0. cx_unfold.
  array_eq ltac:(ring).
Qed.

Lemma cos_period_Z (x : R) (k : Z) : cos (x + 2 * IZR k * PI) = cos x.
Proof.
  destruct k as [|p|p].
  - f_equal. ring.
  - rewrite <- (positive_nat_Z p), <- INR_IZR_INZ. apply cos_period.
  - rewrite <- (cos_period (x + 2 * IZR (Z.neg p) * PI) (Pos.to_nat p)).
    f_equal. rewrite INR_IZR_INZ, positive_nat_Z.
    change (Z.neg p) with (- Z.pos p)%Z. rewrite opp_IZR. ring.
Qed.

Lemma sin_period_Z (x : R) (k : Z) : sin (x + 2 * IZR k * PI) = sin x.
Proof.
  destruct k as [|p|p].
  - f_equal. ring.
  - rewrite <- (positive_nat_Z p), <- INR_IZR_INZ. apply sin_period.
  - rewrite <- (sin_period (x + 2 * IZR (Z.neg p) * PI) (Pos.to_nat p)).
    f_equal. rewrite INR_IZR_INZ, positive_nat_Z.
    change (Z.neg p) with (- Z.pos p)%Z. rewrite opp_IZR. ring.
Qed.

Lemma phase_period (m : Z) (t : R) : phase m (t + 2 * PI) = phase m t.
Proof.
  rewrite !phase_val.
  replace (IZR m * (t + 2 * PI)) with (IZR m * t + 2 * IZR m * PI) by ring.
  now rewrite cos_period_Z, sin_period_Z.
Qed.

(** *** The reduced matrix *)

Lemma half_angle (b : R) :
  cos b = cos (b/2) * cos (b/2) - sin (b/2) * sin (b/2) /\
  sin b = 2 * sin (b/2) * cos (b/2) /\
  sin (b/2) * sin (b/2) + cos (b/2) * cos (b/2) = 1.
Proof.
  split; [|split].
  - rewrite <- cos_2a. f_equal. lra.
  - rewrite <- sin_2a. f_equal. lra.
  - pose proof (sin2_cos2 (b/2)) as Hsc. unfold Rsqr in Hsc. exact Hsc.
Qed.

Lemma sqrt_consts :
  sqrt (3/8) * sqrt (3/8) = 3/8 /\ sqrt (3/2) = 2 * sqrt (3/8).
Proof.
  split.
  - apply sqrt_sqrt. lra.
  - replace (3/2) with (2 * 2 * (3/8)) by lra.
    rewrite sqrt_mult by lra. rewrite sqrt_square by lra. reflexivity.
Qed.

(** The rows of the reduced matrix are orthonormal. *)
Lemma red_wig_orthonormal (b : R) (i j : nat) :
  (i < 5)%nat -> (j < 5)%nat ->
  red_wig_at b i 0 * red_wig_at b j 0 + red_wig_at b i 1 * red_wig_at b j 1
  + red_wig_at b i 2 * red_wig_at b j 2 + red_wig_at b i 3 * red_wig_at b j 3
  + red_wig_at b i 4 * red_wig_at b j 4
  = if Nat.eqb i j then 1 else 0.
Proof.
  intros Hi Hj.
  destruct (half_angle b) as [Hc [Hs Hsc]].
  destruct sqrt_consts as [Hr Hq].
  assert (Hr8 : 8 * (sqrt (3/8) * sqrt (3/8)) = 3) by lra.
  clear Hr.
  unfold red_wig_at, red_wig. rewrite Hq. clear Hq.
  generalize dependent (sqrt (3/8)). intros r Hr.
  rewrite Hc, Hs. clear Hc Hs.
  generalize dependent (cos (b/2)). intros C.
  generalize dependent (sin (b/2)). intros S Hsc.
  assert (Hh : 2 * / 2 = 1) by lra.
  unfold Rdiv.
  generalize dependent (/ 2). intros h Hh.
  destruct i as [|[|[|[|[|i]]]]]; try lia;
  destruct j as [|[|[|[|[|j]]]]]; try lia; cbn [nth Nat.eqb pow].
  all: nsatz.
Qed.

Lemma red_wig_0 :
  red_wig 0 = [[1; 0; 0; 0; 0]; [0; 1; 0; 0; 0]; [0; 0; 1; 0; 0];
               [0; 0; 0; 1; 0]; [0; 0; 0; 0; 1]].
Proof.
  unfold red_wig. replace (0 / 2) with 0 by lra.
  rewrite sin_0, cos_0. cbn [pow].
  array_eq ltac:(try lra).
Qed.

Lemma red_wig_period (beta : R) : red_wig (beta + 2 * PI) = red_wig beta.
Proof.
  unfold red_wig.
  replace ((beta + 2 * PI) / 2) with (beta / 2 + PI) by lra.
  rewrite neg_cos, neg_sin.
  replace (beta + 2 * PI) with (beta + 2 * IZR 1 * PI) by ring.
  rewrite cos_period_Z, sin_period_Z.
  cbn [pow]. array_eq ltac:(try ring).
Qed.

(** *** One entry of W . W^H *)

Lemma unit_term (a a' g : Cx R) (d d' : R) :
  Cnorm2 g = 1 ->
  Cmul (Cmul (Cmul a (RtoC d)) g) (Cconj (Cmul (Cmul a' (RtoC d')) g))
  = Cmul (Cmul a (Cconj a')) (RtoC (d * d')).
Proof.
  destruct a as [ar ai], a' as [br bi], g as [gr gi].
  cx_unfold. intros Hg. array_eq ltac:(nsatz).
Qed.

Lemma sum_of_five (z : Cx R) (x0 x1 x2 x3 x4 : R) :
  Cadd (Cadd (Cadd (Cadd (Cadd C0 (Cmul z (RtoC x0))) (Cmul z (RtoC x1)))
    (Cmul z (RtoC x2))) (Cmul z (RtoC x3))) (Cmul z (RtoC x4))
  = Cmul z (RtoC (x0 + x1 + x2 + x3 + x4)).
Proof. destruct z as [zr zi]. cx_unfold. array_eq ltac:(ring). Qed.

Lemma unit_conj (a : Cx R) :
  Cnorm2 a = 1 -> Cmul (Cmul a (Cconj a)) (RtoC 1) = C1.
Proof.
  destruct a as [ar ai]. cx_unfold. intros Ha. array_eq ltac:(nsatz).
Qed.

Lemma Cmul_RtoC_0 (z : Cx R) : Cmul z (RtoC 0) = C0.
Proof. destruct z as [zr zi]. cx_unfold. array_eq ltac:(ring). Qed.

Lemma Cmul_0_mid (a g : Cx R) : Cmul (Cmul a (RtoC 0)) g = C0.
Proof.
  destruct a as [ar ai], g as [gr gi]. cx_unfold. array_eq ltac:(ring).
Qed.

Lemma wigner_row_dot (alpha beta gamma : R) (i j : nat) :
  (i < 5)%nat -> (j < 5)%nat ->
  let W := wigner_entry alpha beta gamma in
  Cadd (Cadd (Cadd (Cadd (Cadd C0
    (Cmul (W i 0%nat) (Cconj (W j 0%nat))))
    (Cmul (W i 1%nat) (Cconj (W j 1%nat))))
    (Cmul (W i 2%nat) (Cconj (W j 2%nat))))
    (Cmul (W i 3%nat) (Cconj (W j 3%nat))))
    (Cmul (W i 4%nat) (Cconj (W j 4%nat)))
  = if Nat.eqb i j then C1 else C0.
Proof.
  intros Hi Hj W. unfold W, wigner_entry. cbv zeta.
  rewrite !unit_term by apply phase_unit.
  rewrite sum_of_five, red_wig_orthonormal by assumption.
  destruct (Nat.eqb_spec i j) as [->|Hne].
  - apply unit_conj, phase_unit.
  - apply Cmul_RtoC_0.
Qed.
End WignerFacts.

(** ** homemade_wigner.py: the claims *)

Section WignerClaims.
Import Wigner.
Local Open Scope R_scope.

(** C4.  For every real Euler-angle triplet (alpha, beta, gamma) the
    matrix W returned by [generate_wigner] satisfies W . W^H = identity,
    exactly, W^H being the conjugate transpose. *)
Theorem wigner_unitary (alpha beta gamma : R) :
  let W := generate_wigner (alpha, beta, gamma) in
  mmul W (ctranspose W) = identity 5.
Proof.
  intros W. unfold W. rewrite generate_wigner_tabulate.
  cbv [mmul ctranspose transpose tabulate map seq length nth dot zipWith
       fold_left identity diag repeat Nat.eqb].
  array_eq ltac:(idtac).
  all: rewrite wigner_row_dot by lia; reflexivity.
Qed.

(** C6.  For all real alpha and gamma, [generate_wigner (alpha, 0, gamma)]
    is the diagonal matrix whose diagonal entries are
    exp(-i*m*(alpha+gamma)) for m = 2, 1, 0, -1, -2 in that order; and
    [generate_wigner (0, 0, 0)] is the 5x5 identity matrix. *)
Theorem wigner_beta_zero (alpha gamma : R) :
  generate_wigner (alpha, 0, gamma)
  = diag (map (fun m => phase m (alpha + gamma)) [2; 1; 0; -1; -2]%Z)
  /\ generate_wigner (0, 0, 0) = identity 5.
Proof.
  assert (Hdiag : forall a g,
    generate_wigner (a, 0, g)
    = diag (map (fun m => phase m (a + g)) [2; 1; 0; -1; -2]%Z)).
  { intros a g. rewrite generate_wigner_tabulate.
    unfold diag. cbn [length map].
    apply tabulate_ext. intros r c Hr Hc.
    unfold wigner_entry, red_wig_at. rewrite red_wig_0.
    destruct r as [|[|[|[|[|r]]]]]; try lia;
    destruct c as [|[|[|[|[|c]]]]]; try lia;
    cbn [nth plus_to_minus_two Nat.eqb];
    lazymatch goal with
    | |- Cmul (Cmul _ (RtoC 0)) _ = _ => apply Cmul_0_mid
    | |- _ => apply phase_add
    end. }
  split.
  - apply Hdiag.
  - rewrite Hdiag, Rplus_0_l. unfold identity.
    cbn [map repeat]. now rewrite !phase_0.
Qed.

(** C10.  [generate_wigner] is 2*pi-periodic in each Euler angle
    separately: adding 2*pi to alpha, to beta or to gamma does not
    change the matrix. *)
Theorem wigner_periodic (alpha beta gamma : R) :
  generate_wigner (alpha + 2 * PI, beta, gamma)
  = generate_wigner (alpha, beta, gamma) /\
  generate_wigner (alpha, beta + 2 * PI, gamma)
  = generate_wigner (alpha, beta, gamma) /\
  generate_wigner (alpha, beta, gamma + 2 * PI)
  = generate_wigner (alpha, beta, gamma).
Proof.
  rewrite !generate_wigner_tabulate.
  repeat split; apply tabulate_ext; intros r c _ _;
    unfold wigner_entry, red_wig_at.
  - now rewrite phase_period.
  - now rewrite red_wig_period.
  - now rewrite phase_period.
Qed.
End WignerClaims.

(** * Further properties of the two scripts *)

(** ** Complex numbers over the reals form a ring *)

Lemma Cx_ring_theory :
  ring_theory (@C0 R _) (@C1 R _) (@Cadd R _) (@Cmul R _) (@Csub R _)
              (@Copp R _) eq.
Proof.
  constructor; intros; repeat match goal with z : Cx R |- _ => destruct z end;
    cx_unfold; array_eq ltac:(ring).
Qed.

Add Ring CxRing : Cx_ring_theory.

Section ComplexFacts.
Local Open Scope R_scope.

Lemma Cconj_add (z w : Cx R) : Cconj (Cadd z w) = Cadd (Cconj z) (Cconj w).
Proof. destruct z, w. cx_unfold. array_eq ltac:(ring). Qed.

Lemma Cconj_sub (z w : Cx R) : Cconj (Csub z w) = Csub (Cconj z) (Cconj w).
Proof. destruct z, w. cx_unfold. array_eq ltac:(ring). Qed.

Lemma Cconj_mul (z w : Cx R) : Cconj (Cmul z w) = Cmul (Cconj z) (Cconj w).
Proof. destruct z, w. cx_unfold. array_eq ltac:(ring). Qed.

Lemma Cconj_C0 : Cconj (@C0 R _) = C0.
Proof. cx_unfold. array_eq ltac:(ring). Qed.

Lemma Cconj_C1 : Cconj (@C1 R _) = C1.
Proof. cx_unfold. array_eq ltac:(ring). Qed.

Lemma Cconj_RtoC (x : R) : Cconj (RtoC x) = RtoC x.
Proof. cx_unfold. array_eq ltac:(ring). Qed.

Lemma Cdiv_C1 (z : Cx R) : Cdiv z C1 = z.
Proof.
  destruct z. unfold Cdiv. cx_unfold. cbn [div Scalar_R].
  array_eq ltac:(field).
Qed.

Lemma Cdiv_opp_C1 (z : Cx R) : Cdiv z (Copp C1) = Copp z.
Proof.
  destruct z. unfold Cdiv. cx_unfold. cbn [div Scalar_R].
  array_eq ltac:(field).
Qed.

Lemma Cdiv_add (z w d : Cx R) :
  Cdiv (Cadd z w) d = Cadd (Cdiv z d) (Cdiv w d).
Proof.
  destruct z, w, d. unfold Cdiv. cx_unfold. cbn [div Scalar_R].
  unfold Rdiv. array_eq ltac:(ring).
Qed.

Lemma Cdiv_scale (a z d : Cx R) : Cdiv (Cmul a z) d = Cmul a (Cdiv z d).
Proof.
  destruct a, z, d. unfold Cdiv. cx_unfold. cbn [div Scalar_R].
  unfold Rdiv. array_eq ltac:(ring).
Qed.

Lemma Cnorm2_as_product (z : Cx R) : Cmul z (Cconj z) = RtoC (Cnorm2 z).
Proof. destruct z. cx_unfold. array_eq ltac:(ring). Qed.

Lemma Cnorm2_nonneg (z : Cx R) : 0 <= Cnorm2 z.
Proof. destruct z. cx_unfold. nra. Qed.
End ComplexFacts.

(** ** Arrays of a fixed size, entry by entry *)

(** Unfolding of the array operations on explicit lists; the complex
    operations stay folded, for [ring]. *)
Ltac matrix_cbv :=
  cbv [Superoperator.toSuperoperator commutator mmul msub madd mscale vscale
       kron transpose ctranspose zeros dot mv flatten concat fold_left
       Superoperator.expand vadd unit_vector tabulate diag Nat.eqb
       zipWith map flat_map app seq length nth repeat].

(** Unfolding of the constants of create_superoperator.py down to real
    numbers. *)
Ltac basis_cbv :=
  cbv [Superoperator.basis_matrices Superoperator.vector_operators
       Superoperator.product_operators Superoperator.transpose_sign
       Superoperator.vE Superoperator.vIx Superoperator.vIy Superoperator.vIz
       Superoperator.vSx Superoperator.vSy Superoperator.vSz
       Superoperator.vIxSz Superoperator.vIySz Superoperator.vIzSx
       Superoperator.vIzSy Superoperator.vIxSx Superoperator.vIxSy
       Superoperator.vIySx Superoperator.vIySy Superoperator.vIzSz
       Superoperator.E Superoperator.pIx Superoperator.pIy Superoperator.pIz
       Superoperator.pSx Superoperator.pSy Superoperator.pSz
       Superoperator.pIxSz Superoperator.pIySz Superoperator.pIzSx
       Superoperator.pIzSy Superoperator.pIxSx Superoperator.pIxSy
       Superoperator.pIySx Superoperator.pIySy Superoperator.pIzSz
       Superoperator.uni Superoperator.Ix Superoperator.Iy Superoperator.Iz
       commutator mmul msub madd mscale vscale kron transpose
       ctranspose zeros dot mv flatten concat fold_left
       zipWith map flat_map app seq length nth repeat
       Cmul Cadd Csub Copp Cconj C0 C1 Ci RtoC ZtoC half Re Im fst snd
       zero one add mul sub opp div of_Z Scalar_R].

Ltac destruct_4_4 Hs :=
  destruct (has_shape_4_4_inv Hs)
    as [? [? [? [? [? [? [? [? [? [? [? [? [? [? [? [? ->]]]]]]]]]]]]]]]].

Section FixedSize.
Local Open Scope R_scope.

Lemma below_16 (P : nat -> Prop) :
  Forall P (seq 0 16) -> forall r, (r < 16)%nat -> P r.
Proof.
  intros HF r Hr. rewrite Forall_forall in HF. apply HF, in_seq. lia.
Qed.

Lemma length_16_inv (A : Type) (l : list A) :
  length l = 16%nat ->
  exists a0 a1 a2 a3 a4 a5 a6 a7 a8 a9 a10 a11 a12 a13 a14 a15,
    l = [a0; a1; a2; a3; a4; a5; a6; a7; a8; a9; a10; a11; a12; a13; a14; a15].
Proof.
  intros Hl.
  do 16 (destruct l as [|? l]; [discriminate Hl|]).
  destruct l; [|discriminate Hl].
  repeat eexists.
Qed.

Lemma has_shape_16_16_inv (M : mat R) :
  has_shape 16 16 M ->
  exists r0 r1 r2 r3 r4 r5 r6 r7 r8 r9 r10 r11 r12 r13 r14 r15 : vec R,
    M = [r0; r1; r2; r3; r4; r5; r6; r7; r8; r9; r10; r11; r12; r13; r14; r15]
    /\ Forall (fun row => length row = 16%nat)
         [r0; r1; r2; r3; r4; r5; r6; r7; r8; r9; r10; r11; r12; r13; r14; r15].
Proof.
  intros [Hlen Hrows].
  destruct (length_16_inv _ Hlen)
    as [? [? [? [? [? [? [? [? [? [? [? [? [? [? [? [? ->]]]]]]]]]]]]]]]].
  repeat eexists. exact Hrows.
Qed.

Lemma length_vadd (u v : vec R) (n : nat) :
  length u = n -> length v = n -> length (vadd u v) = n.
Proof.
  revert v n. induction u as [|a u IH]; intros [|b v] n Hu Hv;
    simpl in *; try congruence.
  destruct n as [|n]; [discriminate|]. f_equal. apply IH; congruence.
Qed.

Lemma length_mv (M : mat R) (v : vec R) : length (mv M v) = length M.
Proof. apply length_map. Qed.

Lemma zipWith_map_same (A B : Type) (f g : A -> B) (h : B -> B -> B)
    (l : list A) :
  zipWith h (map f l) (map g l) = map (fun x => h (f x) (g x)) l.
Proof. induction l as [|x l IH]; simpl; congruence. Qed.
End FixedSize.

(** A property of the indices below 16, index by index. *)
Ltac each_below_16 tac :=
  apply below_16; cbv [seq];
  repeat (apply Forall_cons; [tac|]); apply Forall_nil.

Ltac destruct_16 H :=
  destruct (length_16_inv _ H)
    as [? [? [? [? [? [? [? [? [? [? [? [? [? [? [? [? ->]]]]]]]]]]]]]]]].

Ltac destruct_16_16 HV :=
  let Hrows := fresh "Hrows" in
  destruct (has_shape_16_16_inv HV) as
    [? [? [? [? [? [? [? [? [? [? [? [? [? [? [? [? [-> Hrows]]]]]]]]]]]]]]]]];
  do 16 (let Hr := fresh "Hr" in let Ht := fresh "Ht" in
    inversion Hrows as [|? ? Hr Ht]; clear Hrows; rename Ht into Hrows; subst;
    destruct_16 Hr);
  clear Hrows.

Section FixedSizeLinear.
Local Open Scope R_scope.

Lemma dot_add_16 (b v w : vec R) :
  length b = 16%nat -> length v = 16%nat -> length w = 16%nat ->
  dot b (vadd v w) = Cadd (dot b v) (dot b w).
Proof.
  intros Hb Hv Hw. destruct_16 Hb. destruct_16 Hv. destruct_16 Hw.
  matrix_cbv. ring.
Qed.

Lemma dot_scale_16 (a : Cx R) (b v : vec R) :
  length b = 16%nat -> length v = 16%nat ->
  dot b (vscale a v) = Cmul a (dot b v).
Proof.
  intros Hb Hv. destruct_16 Hb. destruct_16 Hv.
  matrix_cbv. ring.
Qed.

(** Linear combinations of sixteen vectors of length 16. *)
Lemma lincomb_linear (Bs : mat R) :
  has_shape 16 16 Bs ->
  let L := fun x => fold_left vadd (zipWith vscale x Bs) (repeat C0 16) in
  (forall x y, length x = 16%nat -> length y = 16%nat ->
     L (vadd x y) = vadd (L x) (L y)) /\
  (forall a x, length x = 16%nat -> L (vscale a x) = vscale a (L x)) /\
  (forall x, length x = 16%nat -> length (L x) = 16%nat).
Proof.
  intros HB L. unfold L. clear L. destruct_16_16 HB. split; [|split].
  - intros u w Hu Hw. destruct_16 Hu. destruct_16 Hw.
    matrix_cbv. array_eq ltac:(ring).
  - intros a u Hu. destruct_16 Hu. matrix_cbv. array_eq ltac:(ring).
  - intros u Hu. destruct_16 Hu. reflexivity.
Qed.

Lemma unit_decomposition (v : vec R) :
  length v = 16%nat ->
  v = fold_left vadd (zipWith vscale v (map unit_vector (seq 0 16)))
        (vscale C0 (unit_vector 0)).
Proof.
  intros Hv. destruct_16 Hv. matrix_cbv. array_eq ltac:(ring).
Qed.

(** A linear map on vectors of length 16 that fixes the unit vectors is
    the identity. *)
Lemma linear_identity (F : vec R -> vec R) :
  (forall u w, length u = 16%nat -> length w = 16%nat ->
     F (vadd u w) = vadd (F u) (F w)) ->
  (forall a u, length u = 16%nat -> F (vscale a u) = vscale a (F u)) ->
  (forall j, (j < 16)%nat -> F (unit_vector j) = unit_vector j) ->
  forall v, length v = 16%nat -> F v = v.
Proof.
  intros F_add F_scale F_unit v Hv.
  rewrite (@unit_decomposition v Hv) at 1.
  destruct_16 Hv.
  cbv [map seq zipWith fold_left].
  rewrite !F_add by reflexivity.
  rewrite !F_scale by reflexivity.
  rewrite !F_unit by lia.
  matrix_cbv. array_eq ltac:(ring).
Qed.
End FixedSizeLinear.

(** ** create_superoperator.py: the superoperator as a commutator *)

Section SuperoperatorAlgebra.
Import Superoperator.
Local Open Scope R_scope.

Lemma E_explicit :
  @E R _ = [[C1; C0; C0; C0]; [C0; C1; C0; C0];
            [C0; C0; C1; C0]; [C0; C0; C0; C1]].
Proof. cbv [E uni kron flat_map map app]. cx_unfold. array_eq ltac:(ring). Qed.

Lemma commutator_vec (H0 B : mat R) :
  has_shape 4 4 H0 -> has_shape 4 4 B ->
  mv (toSuperoperator H0) (flatten B) = flatten (commutator H0 B).
Proof.
  intros HH HB. destruct_4_4 HH. destruct_4_4 HB.
  unfold toSuperoperator. rewrite E_explicit.
  matrix_cbv. array_eq ltac:(ring).
Qed.

Lemma has_shape_4_4_explicit (a0 a1 a2 a3 b0 b1 b2 b3 c0 c1 c2 c3
    d0 d1 d2 d3 : Cx R) :
  has_shape 4 4 [[a0; a1; a2; a3]; [b0; b1; b2; b3];
                 [c0; c1; c2; c3]; [d0; d1; d2; d3]].
Proof. split; [reflexivity | repeat constructor]. Qed.

(** X1.  For every complex 4x4 matrix H0, [toSuperoperator H0] is a 16x16
    matrix, and applied to the row-major flattening of any 4x4 matrix B
    it gives the flattening of the commutator H0.B - B.H0. *)
Theorem superoperator_commutator (H0 B : mat R) :
  has_shape 4 4 H0 -> has_shape 4 4 B ->
  has_shape 16 16 (toSuperoperator H0) /\
  mv (toSuperoperator H0) (flatten B) = flatten (commutator H0 B).
Proof.
  intros HH HB. split.
  - destruct_4_4 HH. split; [reflexivity | repeat constructor].
  - now apply commutator_vec.
Qed.

(** X2.  Adding any multiple of the identity E to the Hamiltonian does
    not change the superoperator. *)
Theorem superoperator_identity_shift (H0 : mat R) (a : Cx R) :
  has_shape 4 4 H0 ->
  toSuperoperator (madd H0 (mscale a E)) = toSuperoperator H0.
Proof.
  intros HH. destruct_4_4 HH.
  unfold toSuperoperator. rewrite E_explicit.
  matrix_cbv. array_eq ltac:(ring).
Qed.

(** X3.  The conjugate transpose of the superoperator of H0 is the
    superoperator of the conjugate transpose of H0; a Hermitian
    Hamiltonian therefore has a Hermitian superoperator. *)
Theorem superoperator_adjoint (H0 : mat R) :
  has_shape 4 4 H0 ->
  ctranspose (toSuperoperator H0) = toSuperoperator (ctranspose H0).
Proof.
  intros HH. destruct_4_4 HH.
  unfold toSuperoperator. rewrite E_explicit.
  matrix_cbv.
  rewrite ?Cconj_sub, ?Cconj_mul, ?Cconj_C0, ?Cconj_C1.
  array_eq ltac:(ring).
Qed.

(** *** The pairing of line 117 *)

Lemma pairing_swap (H0 A B : mat R) :
  has_shape 4 4 H0 -> has_shape 4 4 A -> has_shape 4 4 B ->
  dot (flatten A) (flatten (commutator H0 B))
  = Copp (dot (flatten (transpose B)) (flatten (commutator H0 (transpose A)))).
Proof.
  intros HH HA HB. destruct_4_4 HH. destruct_4_4 HA. destruct_4_4 HB.
  matrix_cbv. ring.
Qed.

Lemma pairing_scale (H0 A B : mat R) (a b : Cx R) :
  has_shape 4 4 H0 -> has_shape 4 4 A -> has_shape 4 4 B ->
  dot (flatten (mscale a A)) (flatten (commutator H0 (mscale b B)))
  = Cmul (Cmul a b) (dot (flatten A) (flatten (commutator H0 B))).
Proof.
  intros HH HA HB. destruct_4_4 HH. destruct_4_4 HA. destruct_4_4 HB.
  matrix_cbv. ring.
Qed.

Lemma pairing_conj (H0 A B : mat R) :
  has_shape 4 4 H0 -> has_shape 4 4 A -> has_shape 4 4 B ->
  Cconj (dot (flatten A) (flatten (commutator H0 B)))
  = Copp (dot (flatten (ctranspose A))
              (flatten (commutator (ctranspose H0) (ctranspose B)))).
Proof.
  intros HH HA HB. destruct_4_4 HH. destruct_4_4 HA. destruct_4_4 HB.
  matrix_cbv.
  repeat (rewrite Cconj_add || rewrite Cconj_sub || rewrite Cconj_mul
          || rewrite Cconj_C0).
  ring.
Qed.

Lemma pairing_identity (H0 B : mat R) (a : Cx R) :
  has_shape 4 4 H0 -> has_shape 4 4 B ->
  dot (flatten (mscale a E)) (flatten (commutator H0 B)) = C0.
Proof.
  intros HH HB. destruct_4_4 HH. destruct_4_4 HB.
  rewrite E_explicit. matrix_cbv. ring.
Qed.

(** *** The sixteen basis matrices *)

Lemma nth_basis_vector (K : Type) (SK : Scalar K) (r : nat) :
  nth r (@vector_operators K SK) [] = flatten (nth r basis_matrices []).
Proof.
  change (@vector_operators K SK) with (map flatten (@basis_matrices K SK)).
  apply (map_nth flatten basis_matrices [] r).
Qed.

Lemma basis_matrix_shape (r : nat) :
  (r < 16)%nat -> has_shape 4 4 (nth r (@basis_matrices R _) []).
Proof.
  revert r. each_below_16 ltac:(split; [reflexivity | repeat constructor]).
Qed.

Lemma basis_matrix_transpose (r : nat) :
  (r < 16)%nat ->
  transpose (nth r (@basis_matrices R _) [])
  = mscale (ZtoC (nth r transpose_sign 0%Z)) (nth r basis_matrices []).
Proof.
  revert r. each_below_16 ltac:(basis_cbv; array_eq ltac:(lra)).
Qed.

Lemma basis_matrix_hermitian (r : nat) :
  (r < 16)%nat ->
  ctranspose (nth r (@basis_matrices R _) []) = nth r basis_matrices [].
Proof.
  revert r. each_below_16 ltac:(basis_cbv; array_eq ltac:(lra)).
Qed.

Lemma basis_self_dot (r : nat) :
  (r < 16)%nat ->
  dot (nth r (@vector_operators R _) []) (nth r vector_operators [])
  = ZtoC (nth r transpose_sign 0%Z).
Proof.
  revert r. each_below_16 ltac:(basis_cbv; array_eq ltac:(lra)).
Qed.

Lemma sign_cases (r : nat) :
  (r < 16)%nat ->
  ZtoC (nth r transpose_sign 0%Z) = (@C1 R _) \/
  ZtoC (nth r transpose_sign 0%Z) = Copp (@C1 R _).
Proof.
  revert r.
  each_below_16 ltac:(cbv [nth transpose_sign]; cx_unfold;
    cbv [ZtoC RtoC of_Z Scalar_R zero];
    first [left; array_eq ltac:(lra) | right; array_eq ltac:(lra)]).
Qed.

Lemma vector_operators_lengths :
  Forall (fun b : vec R => length b = 16%nat) vector_operators.
Proof. repeat constructor. Qed.

Lemma vector_operators_shape : has_shape 16 16 (@vector_operators R _).
Proof. split; [reflexivity | apply vector_operators_lengths]. Qed.

(** *** The projection of a commutator superoperator *)

Lemma entry_projectOntoBasis (K : Type) (SK : Scalar K) (S : mat K)
    (r c : nat) :
  (r < 16)%nat -> (c < 16)%nat ->
  entry (projectOntoBasis S) r c = project_entry S r c.
Proof.
  intros Hr Hc. unfold projectOntoBasis.
  apply entry_fill_loop; auto using has_shape_zeros.
Qed.

(** The script's [Hsp] is the projection of the script's [Hs]. *)
Lemma Hsp_is_projection (K : Type) (SK : Scalar K) :
  @Hsp K SK = projectOntoBasis Hs.
Proof. unfold Hsp, projectOntoBasis. f_equal. Qed.

Lemma project_entry_pairing (H0 : mat R) (r c : nat) :
  has_shape 4 4 H0 -> (r < 16)%nat -> (c < 16)%nat ->
  project_entry (toSuperoperator H0) r c
  = Cdiv (pairing H0 r c) (ZtoC (nth r transpose_sign 0%Z)).
Proof.
  intros HH Hr Hc. unfold project_entry, pairing. cbv zeta.
  rewrite basis_self_dot by assumption.
  rewrite !nth_basis_vector.
  rewrite commutator_vec by auto using basis_matrix_shape.
  reflexivity.
Qed.

Lemma pairing_transposed (H0 : mat R) (r c : nat) :
  has_shape 4 4 H0 -> (r < 16)%nat -> (c < 16)%nat ->
  pairing H0 r c
  = Copp (Cmul (Cmul (ZtoC (nth c transpose_sign 0%Z))
                     (ZtoC (nth r transpose_sign 0%Z)))
               (pairing H0 c r)).
Proof.
  intros HH Hr Hc. unfold pairing.
  rewrite (pairing_swap HH (basis_matrix_shape Hr) (basis_matrix_shape Hc)).
  rewrite !basis_matrix_transpose by assumption.
  rewrite pairing_scale by auto using basis_matrix_shape.
  reflexivity.
Qed.

(** X4.  For every complex 4x4 Hamiltonian H0, the projection of its
    superoperator onto the basis (lines 99-117 with H0 in place of H) is
    antisymmetric: entry (r, c) is the opposite of entry (c, r). *)
Theorem projected_antisymmetric (H0 : mat R) (r c : nat) :
  has_shape 4 4 H0 -> (r < 16)%nat -> (c < 16)%nat ->
  entry (projectOntoBasis (toSuperoperator H0)) r c
  = Copp (entry (projectOntoBasis (toSuperoperator H0)) c r).
Proof.
  intros HH Hr Hc.
  rewrite !entry_projectOntoBasis, !project_entry_pairing by assumption.
  rewrite (pairing_transposed HH Hr Hc).
  destruct (sign_cases Hr) as [Hsr | Hsr], (sign_cases Hc) as [Hsc | Hsc];
    rewrite Hsr, Hsc;
    repeat first [rewrite Cdiv_C1 | rewrite Cdiv_opp_C1]; ring.
Qed.

(** X5.  For every complex 4x4 Hamiltonian H0, Hermitian or not, every
    diagonal entry of the projected superoperator is zero. *)
Theorem projected_diagonal_zero_any (H0 : mat R) (r : nat) :
  has_shape 4 4 H0 -> (r < 16)%nat ->
  entry (projectOntoBasis (toSuperoperator H0)) r r = C0.
Proof.
  intros HH Hr.
  rewrite entry_projectOntoBasis, project_entry_pairing by assumption.
  pose proof (pairing_transposed HH Hr Hr) as Hp.
  assert (Hz : pairing H0 r r = C0).
  { destruct (sign_cases Hr) as [Hs | Hs]; rewrite Hs in Hp;
      destruct (pairing H0 r r) as [x y]; revert Hp; cx_unfold;
      intros Hp; injection Hp as Hx Hy; array_eq ltac:(lra). }
  rewrite Hz.
  destruct (sign_cases Hr) as [Hs | Hs]; rewrite Hs;
    [rewrite Cdiv_C1 | rewrite Cdiv_opp_C1]; ring.
Qed.

(** X6.  For every complex 4x4 Hamiltonian H0, the first row and the
    first column of the projected superoperator, those of the identity
    operator, are zero. *)
Theorem projected_identity_decouples (H0 : mat R) (k : nat) :
  has_shape 4 4 H0 -> (k < 16)%nat ->
  entry (projectOntoBasis (toSuperoperator H0)) 0 k = C0 /\
  entry (projectOntoBasis (toSuperoperator H0)) k 0 = C0.
Proof.
  intros HH Hk.
  assert (H0k : pairing H0 0 k = C0).
  { unfold pairing. apply pairing_identity; auto using basis_matrix_shape. }
  assert (Hk0 : pairing H0 k 0 = C0).
  { rewrite pairing_transposed by (assumption || lia). rewrite H0k. ring. }
  rewrite !entry_projectOntoBasis, !project_entry_pairing
    by (assumption || lia).
  rewrite H0k, Hk0. split.
  - destruct (@sign_cases 0 ltac:(lia)) as [Hs | Hs]; rewrite Hs;
      [rewrite Cdiv_C1 | rewrite Cdiv_opp_C1]; ring.
  - destruct (sign_cases Hk) as [Hs | Hs]; rewrite Hs;
      [rewrite Cdiv_C1 | rewrite Cdiv_opp_C1]; ring.
Qed.

(** X7.  For every Hermitian 4x4 Hamiltonian H0 (equal to its conjugate
    transpose), every entry of the projected superoperator has real part
    zero. *)
Theorem projected_imaginary (H0 : mat R) (r c : nat) :
  has_shape 4 4 H0 -> ctranspose H0 = H0 ->
  (r < 16)%nat -> (c < 16)%nat ->
  Re (entry (projectOntoBasis (toSuperoperator H0)) r c) = 0.
Proof.
  intros HH Hherm Hr Hc.
  rewrite entry_projectOntoBasis, project_entry_pairing by assumption.
  pose proof (pairing_conj HH (basis_matrix_shape Hr) (basis_matrix_shape Hc))
    as Hp.
  rewrite Hherm, !basis_matrix_hermitian in Hp by assumption.
  fold (pairing H0 r c) in Hp.
  destruct (pairing H0 r c) as [x y].
  assert (Hx : x = 0).
  { revert Hp. cx_unfold. intros Hp. injection Hp as Hx. lra. }
  subst x.
  destruct (sign_cases Hr) as [Hs | Hs]; rewrite Hs;
    [rewrite Cdiv_C1 | rewrite Cdiv_opp_C1]; cx_unfold; lra.
Qed.
End SuperoperatorAlgebra.

(** ** create_superoperator.py: the basis of line 102 *)

Section BasisFacts.
Import Superoperator.
Local Open Scope R_scope.

(** X8.  Under [np.dot], which does not conjugate, the sixteen basis
    vectors are pairwise orthogonal, and the product of a basis vector
    with itself is 1, except for the six operators with exactly one factor
    Iy (Iy, Sy, IySz, IzSy, IxSy, IySx), where it is -1. *)
Theorem basis_orthogonal (r c : nat) :
  (r < 16)%nat -> (c < 16)%nat ->
  dot (nth r (@vector_operators R _) []) (nth c vector_operators [])
  = if Nat.eqb r c
    then ZtoC (nth r [1; 1; -1; 1; 1; -1; 1; 1; -1; 1; -1; 1; -1; -1; 1; 1]%Z
                 0%Z)
    else C0.
Proof.
  intros Hr Hc.
  rewrite <- !QtoR_vector_operator, <- QtoR_dot.
  assert (Hq : forallb (fun r => forallb (fun c =>
      Qeq_bool (Re (dot (nth r (@vector_operators Q _) [])
                        (nth c (@vector_operators Q _) [])))
               (inject_Z (if Nat.eqb r c then nth r transpose_sign 0%Z
                          else 0%Z))
      && Qeq_bool (Im (dot (nth r (@vector_operators Q _) [])
                           (nth c (@vector_operators Q _) []))) 0)
      (seq 0 16)) (seq 0 16) = true)
    by (vm_compute; reflexivity).
  pose proof (forallb_seq _ (forallb_seq _ Hq Hr) Hc) as Hrc.
  cbv beta in Hrc. rewrite (QtoR_C_eq_ZtoC _ _ Hrc).
  destruct (Nat.eqb r c); reflexivity.
Qed.

Lemma basis_orthogonal_witness :
  (2 < 16)%nat /\ (5 < 16)%nat /\ dot (@vIy R _) vSy = C0.
Proof.
  split; [lia | split; [lia | apply (@basis_orthogonal 2 5); lia]].
Defined.

(** *** Coordinates and expansion are linear *)

Lemma coordinates_add (v w : vec R) :
  length v = 16%nat -> length w = 16%nat ->
  coordinates (vadd v w) = vadd (coordinates v) (coordinates w).
Proof.
  intros Hv Hw. unfold coordinates, vadd at 2.
  rewrite zipWith_map_same. apply map_ext_in. intros b Hb.
  pose proof vector_operators_lengths as HL.
  rewrite Forall_forall in HL.
  rewrite dot_add_16 by auto. apply Cdiv_add.
Qed.

Lemma coordinates_scale (a : Cx R) (v : vec R) :
  length v = 16%nat ->
  coordinates (vscale a v) = vscale a (coordinates v).
Proof.
  intros Hv. unfold coordinates, vscale at 2.
  rewrite map_map. apply map_ext_in. intros b Hb.
  pose proof vector_operators_lengths as HL.
  rewrite Forall_forall in HL.
  rewrite dot_scale_16 by auto. apply Cdiv_scale.
Qed.

Lemma length_coordinates (v : vec R) : length (coordinates v) = 16%nat.
Proof. unfold coordinates. now rewrite length_map. Qed.

Lemma expand_add (x y : vec R) :
  length x = 16%nat -> length y = 16%nat ->
  expand (vadd x y) = vadd (expand x) (expand y).
Proof. apply (lincomb_linear vector_operators_shape). Qed.

Lemma expand_scale (a : Cx R) (x : vec R) :
  length x = 16%nat -> expand (vscale a x) = vscale a (expand x).
Proof. apply (lincomb_linear vector_operators_shape). Qed.

Lemma length_expand (x : vec R) :
  length x = 16%nat -> length (expand x) = 16%nat.
Proof. apply (lincomb_linear vector_operators_shape). Qed.

(** *** Coordinates and expansion on the unit vectors *)

Lemma QtoR_C1 : QtoR_C C1 = C1.
Proof. unfold C1. now rewrite QtoR_pair, Q2R_one, Q2R_zero. Qed.

Lemma QtoR_unit_vector (j : nat) : QtoR_v (unit_vector j) = unit_vector j.
Proof.
  unfold unit_vector, QtoR_v. rewrite map_map. apply map_ext.
  intros k. destruct (Nat.eqb k j); [apply QtoR_C1 | apply QtoR_C0].
Qed.

Lemma QtoR_vadd (u v : vec Q) :
  QtoR_v (vadd u v) = vadd (QtoR_v u) (QtoR_v v).
Proof. unfold QtoR_v, vadd. apply map_zipWith. apply QtoR_Cadd. Qed.

Lemma QtoR_fold_vadd (l : list (vec Q)) (acc : vec Q) :
  QtoR_v (fold_left vadd l acc) = fold_left vadd (map QtoR_v l) (QtoR_v acc).
Proof.
  revert acc. induction l as [|x l IH]; intros acc; simpl; auto.
  now rewrite IH, QtoR_vadd.
Qed.

Lemma QtoR_expand (x : vec Q) : QtoR_v (expand x) = expand (QtoR_v x).
Proof.
  unfold expand. rewrite QtoR_fold_vadd.
  rewrite <- QtoR_vector_operators. f_equal.
  - apply map_zipWith. apply QtoR_vscale.
  - unfold QtoR_v. rewrite map_repeat. now rewrite QtoR_C0.
Qed.

Lemma self_dot_Q_in (b : vec Q) :
  In b vector_operators -> Qeq_bool (Cnorm2 (dot b b)) 0 = false.
Proof.
  intros Hb. destruct (In_nth _ _ [] Hb) as [r [Hr <-]].
  apply self_dot_Q_at. exact Hr.
Qed.

Lemma QtoR_coordinates (v : vec Q) :
  QtoR_v (coordinates v) = coordinates (QtoR_v v).
Proof.
  unfold coordinates. rewrite <- QtoR_vector_operators.
  unfold QtoR_v at 1. rewrite !map_map. apply map_ext_in.
  intros b Hb. rewrite QtoR_Cdiv by now apply self_dot_Q_in.
  now rewrite !QtoR_dot.
Qed.

Lemma expand_coordinates_unit (j : nat) :
  (j < 16)%nat ->
  expand (coordinates (@unit_vector R _ j)) = unit_vector j.
Proof.
  intros Hj. rewrite <- QtoR_unit_vector, <- QtoR_coordinates, <- QtoR_expand.
  f_equal. revert j Hj. each_below_16 ltac:(vm_compute; reflexivity).
Qed.

Lemma coordinates_expand_unit (j : nat) :
  (j < 16)%nat ->
  coordinates (expand (@unit_vector R _ j)) = unit_vector j.
Proof.
  intros Hj. rewrite <- QtoR_unit_vector, <- QtoR_expand, <- QtoR_coordinates.
  f_equal. revert j Hj. each_below_16 ltac:(vm_compute; reflexivity).
Qed.

(** X9.  The basis is complete: any complex vector of length 16 is
    recovered from its coordinates, the quotients
    dot(b, v) / dot(b, b) of line 117, as the sum of coordinate times
    basis vector. *)
Theorem expand_coordinates (v : vec R) :
  length v = 16%nat -> expand (coordinates v) = v.
Proof.
  apply (linear_identity (fun v => expand (coordinates v))).
  - intros u w Hu Hw. rewrite coordinates_add by assumption.
    apply expand_add; apply length_coordinates.
  - intros a u Hu. rewrite coordinates_scale by assumption.
    apply expand_scale, length_coordinates.
  - apply expand_coordinates_unit.
Qed.

Lemma expand_coordinates_witness :
  length (@vIxSy R _) = 16%nat /\ expand (coordinates (@vIxSy R _)) = vIxSy.
Proof.
  split; [reflexivity | apply (@expand_coordinates vIxSy); reflexivity].
Defined.

(** X10.  The coordinates are unique: the coordinates of the vector
    expanded from any sixteen complex coefficients are those
    coefficients. *)
Theorem coordinates_expand (x : vec R) :
  length x = 16%nat -> coordinates (expand x) = x.
Proof.
  apply (linear_identity (fun x => coordinates (expand x))).
  - intros u w Hu Hw. rewrite expand_add by assumption.
    apply coordinates_add; now apply length_expand.
  - intros a u Hu. rewrite expand_scale by assumption.
    apply coordinates_scale. now apply length_expand.
  - apply coordinates_expand_unit.
Qed.

Lemma coordinates_expand_witness :
  length (@unit_vector R _ 3) = 16%nat /\
  coordinates (expand (@unit_vector R _ 3)) = unit_vector 3.
Proof.
  split; [reflexivity | apply (@coordinates_expand (unit_vector 3)); reflexivity].
Defined.

(** X11.  For every complex 16x16 matrix S, column c of the projected
    matrix holds the coordinates of S applied to basis vector c: expanding
    that column in the basis gives back S . basis[c]. *)
Theorem projection_represents (S : mat R) (c : nat) :
  has_shape 16 16 S -> (c < 16)%nat ->
  expand (column (projectOntoBasis S) c) = mv S (nth c vector_operators []).
Proof.
  intros HS Hc.
  assert (Hcol : column (projectOntoBasis S) c
                 = coordinates (mv S (nth c vector_operators []))).
  { unfold column, projectOntoBasis.
    rewrite fill_loop_tabulate by apply has_shape_zeros.
    unfold tabulate. rewrite map_map.
    unfold coordinates.
    transitivity (map (fun r => project_entry S r c) (seq 0 16)).
    - apply map_ext_in. intros r Hr. apply in_seq in Hr.
      rewrite (nth_indep _ C0 (project_entry S r 0)) by
        (rewrite length_map, length_seq; lia).
      rewrite (map_nth (project_entry S r) (seq 0 16) 0%nat c).
      now rewrite seq_nth by lia.
    - reflexivity. }
  rewrite Hcol.
  apply (linear_identity (fun v => expand (coordinates v))).
  - intros u w Hu Hw. rewrite coordinates_add by assumption.
    apply expand_add; apply length_coordinates.
  - intros a u Hu. rewrite coordinates_scale by assumption.
    apply expand_scale, length_coordinates.
  - apply expand_coordinates_unit.
  - rewrite length_mv. apply HS.
Qed.

Lemma projection_represents_witness :
  has_shape 16 16 (@Hs R _) /\ (1 < 16)%nat /\
  expand (column (projectOntoBasis (@Hs R _)) 1) = mv Hs vIx.
Proof.
  assert (HS : has_shape 16 16 (@Hs R _))
    by (split; [reflexivity | repeat constructor]).
  split; [exact HS | split; [lia |]].
  exact (@projection_represents Hs 1 HS ltac:(lia)).
Defined.

(** *** The product operators *)

(** X12.  Each of the sixteen product operators equals its conjugate
    transpose. *)
Theorem product_operators_hermitian (k : nat) :
  (k < 16)%nat ->
  ctranspose (nth k (@product_operators R _) []) = nth k product_operators [].
Proof.
  revert k. each_below_16 ltac:(basis_cbv; array_eq ltac:(lra)).
Qed.

Lemma product_operators_hermitian_witness :
  (2 < 16)%nat /\ ctranspose (@pIy R _) = pIy.
Proof.
  split; [lia | apply (@product_operators_hermitian 2); lia].
Defined.

(** X13.  The single-spin matrices satisfy the angular-momentum
    commutation relations [Ix, Iy] = i Iz, [Iy, Iz] = i Ix,
    [Iz, Ix] = i Iy. *)
Theorem spin_commutation_relations :
  commutator (@Ix R _) Iy = mscale Ci Iz /\
  commutator (@Iy R _) Iz = mscale Ci Ix /\
  commutator (@Iz R _) Ix = mscale Ci Iy.
Proof.
  repeat split; basis_cbv; array_eq ltac:(lra).
Qed.

(** X14.  Each two-spin operator IaSb (a, b in x, y, z) is twice the
    matrix product of the one-spin operators Ia and Sb, and Ia commutes
    with Sb. *)
Theorem bilinear_operators_are_products (a b : nat) :
  (a < 3)%nat -> (b < 3)%nat ->
  let opI := nth a [@pIx R _; pIy; pIz] [] in
  let opS := nth b [@pSx R _; pSy; pSz] [] in
  let opIS := nth b (nth a [[@pIxSx R _; pIxSy; pIxSz];
                            [pIySx; pIySy; pIySz];
                            [pIzSx; pIzSy; pIzSz]] []) [] in
  mscale (ZtoC 2) (mmul opI opS) = opIS /\
  commutator opI opS = zeros 4 4.
Proof.
  intros Ha Hb.
  destruct a as [|[|[|a]]]; try lia; destruct b as [|[|[|b]]]; try lia;
    cbv zeta; cbn [nth]; (split; basis_cbv; array_eq ltac:(lra)).
Qed.

Lemma bilinear_operators_are_products_witness :
  (1 < 3)%nat /\ (2 < 3)%nat /\
  mscale (ZtoC 2) (mmul (@pIy R _) pSz) = pIySz /\
  commutator (@pIy R _) pSz = zeros 4 4.
Proof.
  split; [lia | split; [lia |]].
  apply (@bilinear_operators_are_products 1 2); lia.
Defined.
End BasisFacts.

(** ** create_superoperator.py: witnesses for arbitrary Hamiltonians *)

Section SuperoperatorWitnesses.
Import Superoperator.
Local Open Scope R_scope.

Lemma has_shape_pIz : has_shape 4 4 (@pIz R _).
Proof. split; [reflexivity | repeat constructor]. Qed.

Lemma has_shape_pSx : has_shape 4 4 (@pSx R _).
Proof. split; [reflexivity | repeat constructor]. Qed.

Lemma superoperator_commutator_witness :
  has_shape 4 4 (@pIz R _) /\ has_shape 4 4 (@pSx R _) /\
  has_shape 16 16 (toSuperoperator (@pIz R _)) /\
  mv (toSuperoperator pIz) (flatten pSx) = flatten (commutator pIz pSx).
Proof.
  split; [exact has_shape_pIz | split; [exact has_shape_pSx |]].
  exact (@superoperator_commutator pIz pSx has_shape_pIz has_shape_pSx).
Defined.

Lemma superoperator_identity_shift_witness :
  has_shape 4 4 (@pIz R _) /\
  toSuperoperator (madd (@pIz R _) (mscale Ci E)) = toSuperoperator pIz.
Proof.
  split; [exact has_shape_pIz |].
  exact (@superoperator_identity_shift pIz Ci has_shape_pIz).
Defined.

Lemma superoperator_adjoint_witness :
  has_shape 4 4 (@pSx R _) /\
  ctranspose (toSuperoperator (@pSx R _)) = toSuperoperator (ctranspose pSx).
Proof.
  split; [exact has_shape_pSx |].
  exact (@superoperator_adjoint pSx has_shape_pSx).
Defined.

Lemma projected_antisymmetric_witness :
  has_shape 4 4 (@pIz R _) /\ (1 < 16)%nat /\ (2 < 16)%nat /\
  entry (projectOntoBasis (toSuperoperator (@pIz R _))) 1 2
  = Copp (entry (projectOntoBasis (toSuperoperator pIz)) 2 1).
Proof.
  split; [exact has_shape_pIz | split; [lia | split; [lia |]]].
  apply (@projected_antisymmetric pIz 1 2 has_shape_pIz); lia.
Defined.

Lemma projected_diagonal_zero_any_witness :
  has_shape 4 4 (@pSx R _) /\ (9 < 16)%nat /\
  entry (projectOntoBasis (toSuperoperator (@pSx R _))) 9 9 = C0.
Proof.
  split; [exact has_shape_pSx | split; [lia |]].
  apply (@projected_diagonal_zero_any pSx 9 has_shape_pSx); lia.
Defined.

Lemma projected_identity_decouples_witness :
  has_shape 4 4 (@pIz R _) /\ (5 < 16)%nat /\
  entry (projectOntoBasis (toSuperoperator (@pIz R _))) 0 5 = C0 /\
  entry (projectOntoBasis (toSuperoperator (@pIz R _))) 5 0 = C0.
Proof.
  split; [exact has_shape_pIz | split; [lia |]].
  apply (@projected_identity_decouples pIz 5 has_shape_pIz); lia.
Defined.

Lemma projected_imaginary_witness :
  has_shape 4 4 (@pIz R _) /\ ctranspose (@pIz R _) = pIz /\
  (1 < 16)%nat /\ (2 < 16)%nat /\
  Re (entry (projectOntoBasis (toSuperoperator (@pIz R _))) 1 2) = 0.
Proof.
  assert (Hh : ctranspose (@pIz R _) = pIz)
    by (apply (@basis_matrix_hermitian 3); lia).
  split; [exact has_shape_pIz | split; [exact Hh | split; [lia | split; [lia |]]]].
  apply (@projected_imaginary pIz 1 2 has_shape_pIz Hh); lia.
Defined.
End SuperoperatorWitnesses.

(** ** homemade_wigner.py: further properties *)

Section WignerAlgebra.
Import Wigner.
Local Open Scope R_scope.

(** The reduced matrix at the opposite angle is the transpose. *)
Lemma red_wig_neg (beta : R) (r c : nat) :
  (r < 5)%nat -> (c < 5)%nat ->
  red_wig_at (- beta) r c = red_wig_at beta c r.
Proof.
  intros Hr Hc. unfold red_wig_at, red_wig.
  replace (- beta / 2) with (- (beta / 2)) by lra.
  rewrite !cos_neg, !sin_neg.
  destruct r as [|[|[|[|[|r]]]]]; try lia;
  destruct c as [|[|[|[|[|c]]]]]; try lia; cbn [nth pow]; field.
Qed.

Lemma phase_neg (m : Z) (t : R) : phase m (- t) = Cconj (phase m t).
Proof.
  rewrite !phase_val.
  replace (IZR m * - t) with (- (IZR m * t)) by ring.
  rewrite cos_neg, sin_neg. cx_unfold. reflexivity.
Qed.

Lemma phase_opp (m : Z) (t : R) : phase (- m) t = Cconj (phase m t).
Proof.
  rewrite !phase_val, opp_IZR.
  replace (- IZR m * t) with (- (IZR m * t)) by ring.
  rewrite cos_neg, sin_neg. cx_unfold. reflexivity.
Qed.

Lemma phase_sum (m : Z) (s t : R) :
  Cmul (phase m s) (phase m t) = phase m (s + t).
Proof.
  rewrite !phase_val, Rmult_plus_distr_l, cos_plus, sin_plus.
  cx_unfold. array_eq ltac:(ring).
Qed.

(** X16.  The matrix of the inverse rotation is the conjugate transpose:
    [generate_wigner (-gamma, -beta, -alpha)] is the conjugate transpose of
    [generate_wigner (alpha, beta, gamma)]. *)
Theorem wigner_inverse (alpha beta gamma : R) :
  generate_wigner (- gamma, - beta, - alpha)
  = ctranspose (generate_wigner (alpha, beta, gamma)).
Proof.
  rewrite !generate_wigner_tabulate.
  cbv [ctranspose transpose tabulate map seq length nth].
  unfold wigner_entry. cbv zeta.
  rewrite !phase_neg.
  rewrite !red_wig_neg by lia.
  rewrite !Cconj_mul, !Cconj_RtoC.
  array_eq ltac:(ring).
Qed.

(** X17.  With alpha = gamma = 0 the Wigner matrix is the real reduced
    matrix [red_wig beta], every imaginary part being zero. *)
Theorem wigner_real_at_zero_phases (beta : R) :
  generate_wigner (0, beta, 0) = map (map RtoC) (red_wig beta).
Proof.
  rewrite generate_wigner_tabulate.
  cbv [tabulate map seq]. unfold wigner_entry, red_wig_at. cbv zeta.
  rewrite !phase_0. unfold red_wig. cbn [nth map].
  array_eq ltac:(idtac); cx_unfold; array_eq ltac:(ring).
Qed.

Lemma wigner_z_diag (a g : R) :
  generate_wigner (a, 0, g)
  = diag (map (fun m => phase m (a + g)) [2; 1; 0; -1; -2]%Z).
Proof.
  rewrite generate_wigner_tabulate.
  unfold diag. cbn [length map].
  apply tabulate_ext. intros r c Hr Hc.
  unfold wigner_entry, red_wig_at. rewrite red_wig_0.
  destruct r as [|[|[|[|[|r]]]]]; try lia;
  destruct c as [|[|[|[|[|c]]]]]; try lia;
  cbn [nth plus_to_minus_two Nat.eqb];
  lazymatch goal with
  | |- Cmul (Cmul _ (RtoC 0)) _ = _ => apply Cmul_0_mid
  | |- _ => apply phase_add
  end.
Qed.

Lemma wigner_y_tabulate (beta : R) :
  generate_wigner (0, beta, 0)
  = tabulate 5 5 (fun r c => RtoC (red_wig_at beta r c)).
Proof.
  rewrite generate_wigner_tabulate. apply tabulate_ext.
  intros r c _ _. unfold wigner_entry. cbv zeta.
  rewrite !phase_0. ring.
Qed.

(** X18.  Every Wigner matrix is the product of three one-angle
    matrices: W(alpha, beta, gamma) =
    W(alpha, 0, 0) . W(0, beta, 0) . W(0, 0, gamma). *)
Theorem wigner_factorisation (alpha beta gamma : R) :
  generate_wigner (alpha, beta, gamma)
  = mmul (generate_wigner (alpha, 0, 0))
         (mmul (generate_wigner (0, beta, 0)) (generate_wigner (0, 0, gamma))).
Proof.
  rewrite !wigner_z_diag, Rplus_0_r, Rplus_0_l.
  rewrite !generate_wigner_tabulate.
  matrix_cbv. unfold wigner_entry. cbv zeta.
  cbn [nth plus_to_minus_two]. rewrite !phase_0.
  array_eq ltac:(ring).
Qed.

(** X19.  Rotations with beta = 0 compose by adding their angles:
    W(a1, 0, g1) . W(a2, 0, g2) = W(a1 + a2, 0, g1 + g2). *)
Theorem wigner_z_rotations_compose (a1 g1 a2 g2 : R) :
  mmul (generate_wigner (a1, 0, g1)) (generate_wigner (a2, 0, g2))
  = generate_wigner (a1 + a2, 0, g1 + g2).
Proof.
  rewrite !wigner_z_diag.
  replace (a1 + a2 + (g1 + g2)) with ((a1 + g1) + (a2 + g2)) by ring.
  matrix_cbv.
  rewrite <- !phase_sum.
  array_eq ltac:(ring).
Qed.

Lemma red_wig_compose (b1 b2 : R) (i j : nat) :
  (i < 5)%nat -> (j < 5)%nat ->
  red_wig_at b1 i 0 * red_wig_at b2 0 j + red_wig_at b1 i 1 * red_wig_at b2 1 j
  + red_wig_at b1 i 2 * red_wig_at b2 2 j + red_wig_at b1 i 3 * red_wig_at b2 3 j
  + red_wig_at b1 i 4 * red_wig_at b2 4 j
  = red_wig_at (b1 + b2) i j.
Proof.
  intros Hi Hj.
  destruct (half_angle b1) as [Hc1 [Hs1 Hsc1]].
  destruct (half_angle b2) as [Hc2 [Hs2 Hsc2]].
  destruct sqrt_consts as [Hr Hq].
  assert (Hr8 : 8 * (sqrt (3/8) * sqrt (3/8)) = 3) by lra.
  clear Hr.
  unfold red_wig_at, red_wig.
  replace ((b1 + b2) / 2) with (b1 / 2 + b2 / 2) by lra.
  rewrite !cos_plus, !sin_plus.
  rewrite Hq. clear Hq.
  generalize dependent (sqrt (3/8)). intros r Hr.
  rewrite Hc1, Hs1, Hc2, Hs2. clear Hc1 Hs1 Hc2 Hs2.
  generalize dependent (cos (b1/2)). intros C1.
  generalize dependent (sin (b1/2)). intros S1 Hsc1.
  generalize dependent (cos (b2/2)). intros C2.
  generalize dependent (sin (b2/2)). intros S2 Hsc2.
  assert (Hh : 2 * / 2 = 1) by lra.
  unfold Rdiv.
  generalize dependent (/ 2). intros h Hh.
  destruct i as [|[|[|[|[|i]]]]]; try lia;
  destruct j as [|[|[|[|[|j]]]]]; try lia; cbn [nth Nat.eqb pow].
  all: nsatz.
Qed.

Lemma RtoC_sum_of_products (x0 y0 x1 y1 x2 y2 x3 y3 x4 y4 : R) :
  Cadd (Cadd (Cadd (Cadd (Cadd C0
    (Cmul (RtoC x0) (RtoC y0))) (Cmul (RtoC x1) (RtoC y1)))
    (Cmul (RtoC x2) (RtoC y2))) (Cmul (RtoC x3) (RtoC y3)))
    (Cmul (RtoC x4) (RtoC y4))
  = RtoC (x0 * y0 + x1 * y1 + x2 * y2 + x3 * y3 + x4 * y4).
Proof. cx_unfold. array_eq ltac:(ring). Qed.

(** X20.  Rotations with alpha = gamma = 0 compose by adding their
    angles: W(0, b1, 0) . W(0, b2, 0) = W(0, b1 + b2, 0). *)
Theorem wigner_y_rotations_compose (b1 b2 : R) :
  mmul (generate_wigner (0, b1, 0)) (generate_wigner (0, b2, 0))
  = generate_wigner (0, b1 + b2, 0).
Proof.
  rewrite !wigner_y_tabulate.
  cbv [mmul transpose tabulate map seq length nth dot zipWith fold_left].
  rewrite !RtoC_sum_of_products.
  rewrite !red_wig_compose by lia.
  reflexivity.
Qed.

(** X21.  Every entry of the Wigner matrix has squared modulus at most
    1. *)
Theorem wigner_entry_bounded (alpha beta gamma : R) (row col : nat) :
  (row < 5)%nat -> (col < 5)%nat ->
  Cnorm2 (entry (generate_wigner (alpha, beta, gamma)) row col) <= 1.
Proof.
  intros Hr Hc.
  rewrite generate_wigner_tabulate, entry_tabulate by assumption.
  pose proof (wigner_row_dot alpha beta gamma Hr Hr) as Hrow.
  cbv zeta in Hrow. rewrite Nat.eqb_refl in Hrow.
  rewrite !Cnorm2_as_product in Hrow.
  generalize dependent (wigner_entry alpha beta gamma). intros W Hrow.
  pose proof (Cnorm2_nonneg (W row 0%nat)) as H0.
  pose proof (Cnorm2_nonneg (W row 1%nat)) as H1.
  pose proof (Cnorm2_nonneg (W row 2%nat)) as H2.
  pose proof (Cnorm2_nonneg (W row 3%nat)) as H3.
  pose proof (Cnorm2_nonneg (W row 4%nat)) as H4.
  revert Hrow. cx_unfold. intros Hrow. injection Hrow as Hsum _.
  destruct col as [|[|[|[|[|col]]]]]; try lia; lra.
Qed.

Lemma wigner_entry_bounded_witness :
  (2 < 5)%nat /\ (4 < 5)%nat /\
  Cnorm2 (entry (generate_wigner (1, 2, 3)) 2 4) <= 1.
Proof.
  split; [lia | split; [lia |]].
  apply (@wigner_entry_bounded 1 2 3 2 4); lia.
Defined.

Lemma red_wig_reflect (beta : R) (r c : nat) :
  (r < 5)%nat -> (c < 5)%nat ->
  red_wig_at beta (4 - r) (4 - c)
  = (if Nat.even (r + c) then 1 else -1) * red_wig_at beta r c.
Proof.
  intros Hr Hc. unfold red_wig_at, red_wig.
  destruct r as [|[|[|[|[|r]]]]]; try lia;
  destruct c as [|[|[|[|[|c]]]]]; try lia;
  cbn [nth pow Nat.sub Nat.add Nat.even]; field.
Qed.

(** X22.  Reversing the signs of both indices conjugates the entry up to
    a sign: entry (4 - row, 4 - col), that of (-m', -m), is
    (-1)^(row + col) times the complex conjugate of entry (row, col). *)
Theorem wigner_conjugation_symmetry (alpha beta gamma : R) (row col : nat) :
  (row < 5)%nat -> (col < 5)%nat ->
  entry (generate_wigner (alpha, beta, gamma)) (4 - row) (4 - col)
  = Cmul (RtoC (if Nat.even (row + col) then 1 else -1))
         (Cconj (entry (generate_wigner (alpha, beta, gamma)) row col)).
Proof.
  intros Hr Hc.
  rewrite generate_wigner_tabulate, !entry_tabulate by lia.
  unfold wigner_entry. cbv zeta.
  rewrite red_wig_reflect by assumption.
  replace (nth (4 - row) plus_to_minus_two 0%Z)
    with (- nth row plus_to_minus_two 0%Z)%Z
    by (destruct row as [|[|[|[|[|row]]]]]; try lia; reflexivity).
  replace (nth (4 - col) plus_to_minus_two 0%Z)
    with (- nth col plus_to_minus_two 0%Z)%Z
    by (destruct col as [|[|[|[|[|col]]]]]; try lia; reflexivity).
  rewrite !phase_opp, !Cconj_mul.
  generalize (Cconj (phase (nth row plus_to_minus_two 0%Z) alpha)).
  generalize (Cconj (phase (nth col plus_to_minus_two 0%Z) gamma)).
  generalize (red_wig_at beta row col).
  generalize (if Nat.even (row + col) then 1 else -1).
  intros s d [gr gi] [ar ai]. cx_unfold. array_eq ltac:(ring).
Qed.

Lemma wigner_conjugation_symmetry_witness :
  (0 < 5)%nat /\ (1 < 5)%nat /\
  entry (generate_wigner (1, 2, 3)) 4 3
  = Cmul (RtoC (-1)) (Cconj (entry (generate_wigner (1, 2, 3)) 0 1)).
Proof.
  split; [lia | split; [lia |]].
  apply (@wigner_conjugation_symmetry 1 2 3 0 1); lia.
Defined.
End WignerAlgebra.
